(** * tzgrep: searching names inside nested, compressed tar archives

    A shallow embedding of [tzgrep.go] and the properties of its
    traversal engine: the suffix classifier [newDecompressor], the
    recursive descender [find], the per-root entry point [findPath] and
    the dispatcher [Start] with its wait group and result channel. *)

From Stdlib Require Import List String Ascii Bool Arith Lia Permutation.
Import ListNotations.
Local Open Scope string_scope.
Local Open Scope list_scope.
Local Open Scope nat_scope.

(* ================================================================== *)
(** ** Go strings *)

Module GoStrings.

(** [strings.ToLower].  Names are byte strings; the model lowers the
    ASCII letters and leaves every other byte alone.  Go lowers runes:
    the only runes outside ASCII whose lower case is an ASCII letter are
    U+212A (to k) and U+0130 (to i), and neither letter occurs in the
    suffix table below, so suffix tests on the lowered name agree. *)
Definition lower_ascii (c : ascii) : ascii :=
  let n := nat_of_ascii c in
  if (65 <=? n) && (n <=? 90) then ascii_of_nat (n + 32) else c.

Fixpoint ToLower (s : string) : string :=
  match s with
  | EmptyString => EmptyString
  | String c s' => String (lower_ascii c) (ToLower s')
  end.

(** [strings.HasSuffix(s, suffix)]:
    [len(s) >= len(suffix) && s[len(s)-len(suffix):] == suffix]. *)
Definition HasSuffix (s suffix : string) : bool :=
  (String.length suffix <=? String.length s) &&
  String.eqb
    (substring (String.length s - String.length suffix)
               (String.length suffix) s)
    suffix.

End GoStrings.
Export GoStrings.

(* ================================================================== *)
(** ** The container classifier *)

(** The [decompressor] closures that [newDecompressor] can return, as a
    tagged variant: the identity for plain tar, gzip, bzip2, and the two
    external commands [xz -d -T0] and [zstd -d]. *)
Inductive decompressor : Type :=
| Identity
| Gzip
| Bzip2
| Xz
| Zstd.

(** [hasSuffixes(s, suffixes...)] *)
Fixpoint hasSuffixes (s : string) (suffixes : list string) : bool :=
  match suffixes with
  | [] => false
  | suffix :: rest => if HasSuffix s suffix then true else hasSuffixes s rest
  end.

Definition tar_suffixes : list string := [".tar"].
Definition gzip_suffixes : list string := [".tar.gz"; ".tgz"; ".taz"].
Definition bzip2_suffixes : list string :=
  [".tar.bz2"; ".tar.bz"; ".tbz"; ".tbz2"; ".tz2"; ".tb2"].
Definition xz_suffixes : list string := [".tar.xz"; ".txz"].
Definition zstd_suffixes : list string := [".tar.zst"; ".tzst"; ".tar.zstd"].

(** [newDecompressor(path) (zf, ok)]; a nil [zf] is [None]. *)
Definition newDecompressor (path : string) : option decompressor * bool :=
  let p := ToLower path in
  if hasSuffixes p tar_suffixes then (Some Identity, true)
  else if hasSuffixes p gzip_suffixes then (Some Gzip, true)
  else if hasSuffixes p bzip2_suffixes then (Some Bzip2, true)
  else if hasSuffixes p xz_suffixes then (Some Xz, true)
  else if hasSuffixes p zstd_suffixes then (Some Zstd, true)
  else (None, false).

(** Every suffix of the table, in the order the switch tests them. *)
Definition known_suffixes : list string :=
  tar_suffixes ++ gzip_suffixes ++ bzip2_suffixes ++ xz_suffixes
  ++ zstd_suffixes.

(* ================================================================== *)
(** ** Streams, tar readers and results *)

(** A Go [error] value that is not nil; only its presence matters to
    the traversal, the text is kept for the reports. *)
Definition error := string.

(** What a byte stream is to this program.  A [stream] is known by what
    each transform makes of it ([zf(zr)] returns a reader and an error,
    both, as in Go); a [reader] is either a reader that cannot be read
    (nil, or wrapping a nil pointer: using it panics) or a byte source
    that [tar.NewReader] iterates; a [tarlog] is the sequence of
    answers of successive [tr.Next()] calls: a header with the entry's
    content stream, an error other than [io.EOF], or [io.EOF]. *)
Inductive stream : Type :=
| Stream (zopen : decompressor -> zresult)
with zresult : Type :=
| ZRes (r : reader) (err : option error)
with reader : Type :=
| NilReader
| TarReader (nexts : tarlog)
with tarlog : Type :=
| TEOF
| TErr (e : error) (rest : tarlog)
| THdr (name : string) (body : stream) (rest : tarlog).

Scheme stream_mut := Induction for stream Sort Prop
  with zresult_mut := Induction for zresult Sort Prop
  with reader_mut := Induction for reader Sort Prop
  with tarlog_mut := Induction for tarlog Sort Prop.

Definition zopen_of (zr : stream) : decompressor -> zresult :=
  match zr with Stream f => f end.

(** [type Result struct { Path []string; Err error }] *)
Record Result : Type := mkResult { Path : list string; Err : option error }.

(** What one goroutine does, in order: [Enter d path] marks a call of
    [find] with the chain [path], [Send d r] is [tz.Out <- r].  The
    depth [d] is a ghost: the number of [find] frames below the one
    that performs the event; the channel carries [r] alone. *)
Inductive event : Type :=
| Enter (depth : nat) (path : list string)
| Send (depth : nat) (r : Result).

(** A computation is the events it performed and its value; [None] is
    a Go panic, after which nothing more happens in the process. *)
Definition M (A : Type) : Type := (list event * option A)%type.

Definition ret {A} (a : A) : M A := ([], Some a).
Definition panic {A} : M A := ([], None).
Definition emit (e : event) : M unit := ([e], Some tt).
Definition bind {A B} (m : M A) (f : A -> M B) : M B :=
  match m with
  | (t, Some a) => let (t', b) := f a in (t ++ t', b)
  | (t, None) => (t, None)
  end.

Notation "x <- m ;; k" := (bind m (fun x => k))
  (at level 61, m at next level, right associativity).
Notation "m ;;; k" := (bind m (fun _ => k))
  (at level 61, right associativity).

Definition trace {A} (m : M A) : list event := fst m.
Definition outcome {A} (m : M A) : option A := snd m.

(** The terminal name of a chain, when it has one. *)
Definition terminal (path : list string) : option string :=
  match rev path with
  | [] => None
  | name :: _ => Some name
  end.

(** [path[len(path)-1]]: panics (index out of range) on an empty slice. *)
Definition index_last (path : list string) : M string :=
  match terminal path with
  | None => panic
  | Some name => ret name
  end.

(** The results a sequence of events puts on the channel, in order. *)
Fixpoint results (t : list event) : list Result :=
  match t with
  | [] => []
  | Enter _ _ :: t' => results t'
  | Send _ r :: t' => r :: results t'
  end.

(* ================================================================== *)
(** ** The traversal *)

(** [type TZgrep struct { Out chan Result; exp *regexp.Regexp }]: the
    compiled pattern is known by [tz.exp.MatchString]; the channel
    [tz.Out] is the [Send] events. *)
Record TZgrep : Type := mkTZgrep { MatchString : string -> bool }.

(** [os.Open(path)] returns a file and an error, both; the file is the
    stream of its bytes (for a nil file, whatever reading a nil file
    gives). *)
Definition FileSystem : Type := string -> stream * option error.

(** [func (tz *TZgrep) find(zr io.Reader, path []string)], with the
    [for h, err := tr.Next(); err != io.EOF; h, err = tr.Next()] loop
    as [iterate].  The events and the panics are those of the code;
    [defer r.Close()] is left out here: where this computation returns,
    the code may still block in the Close of an xz or zstd reader
    ([findC] below has it). *)
Fixpoint find (tz : TZgrep) (depth : nat) (zr : stream) (path : list string)
  {struct zr} : M unit :=
  emit (Enter depth path) ;;;
  name <- index_last path ;;
  (if MatchString tz name then emit (Send depth (mkResult path None))
   else ret tt) ;;;
  match newDecompressor name with
  | (_, false) => ret tt
  | (None, true) => panic
  | (Some zf, true) =>
      match zr with
      | Stream zopen =>
          match zopen zf with
          | ZRes r err =>
              (match err with
               | Some e => emit (Send depth (mkResult path (Some e)))
               | None => ret tt
               end) ;;;
              match r with
              | NilReader => panic
              | TarReader nexts => iterate tz depth nexts path
              end
          end
      end
  end
with iterate (tz : TZgrep) (depth : nat) (nexts : tarlog) (path : list string)
  {struct nexts} : M unit :=
  match nexts with
  | TEOF => ret tt
  | TErr e _ => emit (Send depth (mkResult path (Some e)))
  | THdr name body rest =>
      find tz (S depth) body (path ++ [name]) ;;;
      iterate tz depth rest path
  end.

(** [func (tz *TZgrep) findPath(path string)] *)
Definition findPath (tz : TZgrep) (fs : FileSystem) (path : string) : M unit :=
  let (f, err) := fs path in
  (match err with
   | Some e => emit (Send 0 (mkResult [path] (Some e)))
   | None => ret tt
   end) ;;;
  find tz 0 f [path].

(** The events of one [find] frame before it turns to the container. *)
Definition visit (tz : TZgrep) (d : nat) (path : list string) : list event :=
  Enter d path ::
  match terminal path with
  | Some name =>
      if MatchString tz name then [Send d (mkResult path None)] else []
  | None => []
  end.

(** What [find] does after the match test, given the terminal name. *)
Definition descend (tz : TZgrep) (d : nat) (zr : stream) (name : string)
  (path : list string) : M unit :=
  match newDecompressor name with
  | (_, false) => ret tt
  | (None, true) => panic
  | (Some zf, true) =>
      match zopen_of zr zf with
      | ZRes r err =>
          (match err with
           | Some e => emit (Send d (mkResult path (Some e)))
           | None => ret tt
           end) ;;;
          match r with
          | NilReader => panic
          | TarReader nexts => iterate tz d nexts path
          end
      end
  end.

(* ================================================================== *)
(** ** Auxiliary notions used in the statements *)

Definition chars (s : string) : list ascii := list_ascii_of_string s.

(** Boolean prefix test on character lists. *)
Fixpoint prefixb (p l : list ascii) : bool :=
  match p, l with
  | [], _ => true
  | _ :: _, [] => false
  | a :: p', b :: l' => Ascii.eqb a b && prefixb p' l'
  end.

(** Where an event sits under a frame of depth [d] and chain [path]:
    its chain extends [path] by as many names as its depth exceeds [d]. *)
Definition below (d : nat) (path : list string) (e : event) : Prop :=
  match e with
  | Enter d' c => exists ext, c = path ++ ext /\ d' = d + List.length ext
  | Send d' r => exists ext, Path r = path ++ ext /\ d' = d + List.length ext
  end.


(** A tar stream that answers the headers [hs], in order, and then
    goes on as [tail]. *)
Fixpoint entries (hs : list (string * stream)) (tail : tarlog) : tarlog :=
  match hs with
  | [] => tail
  | (name, body) :: hs' => THdr name body (entries hs' tail)
  end.

(** The descents into the entries [hs] of the container [path], one
    after the other. *)
Fixpoint visit_all (tz : TZgrep) (d : nat) (hs : list (string * stream))
  (path : list string) : M unit :=
  match hs with
  | [] => ret tt
  | (name, body) :: hs' =>
      find tz (S d) body (path ++ [name]) ;;; visit_all tz d hs' path
  end.

(** The errors of the failure Results tagged with exactly [path]. *)
Fixpoint failures_at (path : list string) (t : list event) : list error :=
  match t with
  | [] => []
  | Send _ (mkResult p (Some e)) :: t' =>
      if list_eq_dec string_dec p path then e :: failures_at path t'
      else failures_at path t'
  | _ :: t' => failures_at path t'
  end.




(* ================================================================== *)
(** ** Sample worlds *)

Module Samples.

(** The bytes of an ordinary file: no gzip header, no tar header. *)
Definition plain : stream :=
  Stream (fun zf =>
    match zf with
    | Gzip => ZRes NilReader (Some "gzip: invalid header")
    | _ => ZRes (TarReader (TErr "unexpected EOF" TEOF)) None
    end).

(** A nil [*os.File] as a reader: every [Read] answers
    [os.ErrInvalid].  [gzip.NewReader] fails on it and returns a nil
    reader; the identity and bzip2 transforms succeed and the tar
    reader then meets the error; what the external commands make of it
    is [ext]. *)
Definition nilFile (ext : zresult) : stream :=
  Stream (fun zf =>
    match zf with
    | Identity | Bzip2 => ZRes (TarReader (TErr "invalid argument" TEOF)) None
    | Gzip => ZRes NilReader (Some "invalid argument")
    | Xz | Zstd => ext
    end).

(** A tar stream with the given entries and a clean end. *)
Definition tarball (hs : list (string * stream)) : stream :=
  Stream (fun zf =>
    match zf with
    | Identity => ZRes (TarReader (entries hs TEOF)) None
    | Gzip => ZRes NilReader (Some "gzip: invalid header")
    | _ => ZRes (TarReader (TErr "unexpected EOF" TEOF)) None
    end).

(** A gzip stream over a tar stream with the given entries. *)
Definition gzipped (hs : list (string * stream)) : stream :=
  Stream (fun zf =>
    match zf with
    | Gzip => ZRes (TarReader (entries hs TEOF)) None
    | _ => ZRes (TarReader (TErr "archive/tar: invalid tar header" TEOF)) None
    end).

(** A directory with [leaf.txt], [a.tar] (holding [x.txt] and
    [inner.tar.gz], which holds [y.txt]), [bad.tar.gz] that is no gzip
    file, and nothing else. *)
Definition disk : FileSystem := fun path =>
  if String.eqb path "leaf.txt" then (plain, None)
  else if String.eqb path "a.tar" then
    (tarball [("x.txt", plain);
              ("inner.tar.gz", gzipped [("y.txt", plain)])], None)
  else if String.eqb path "bad.tar.gz" then (plain, None)
  else (nilFile (ZRes (TarReader TEOF) None),
        Some ("open " ++ path ++ ": no such file or directory")%string).

(** A pattern that matches the names containing the letter y, and one
    that matches the names starting with m. *)
Fixpoint contains_y (s : string) : bool :=
  match s with
  | EmptyString => false
  | String c s' => Ascii.eqb c "y"%char || contains_y s'
  end.

Definition pattern_y : TZgrep := mkTZgrep contains_y.
Definition pattern_m : TZgrep := mkTZgrep (String.prefix "m").
Definition pattern_none : TZgrep := mkTZgrep (fun _ => false).
Definition pattern_leaf : TZgrep := mkTZgrep (String.prefix "leaf").

End Samples.

(* ================================================================== *)
(** ** The dispatcher: [Start], its goroutines and the channel *)

(** One goroutine [go func() { tz.findPath(p); wg.Done() }()]: the
    events of [findPath] it has performed, those still to come, how
    [findPath] ends after them ([None]: it panics) and whether
    [wg.Done()] has run. *)
Record descent : Type := mkDescent {
  d_root : string;
  d_past : list event;
  d_todo : list event;
  d_end : option unit;
  d_done : bool
}.

(** The process after [wg.Add(len(paths))] and the launch of the
    closing goroutine: the roots the loop has not launched yet, the
    goroutines launched, the wait group counter, whether the closing
    goroutine is still in [wg.Wait()], how many times [close(tz.Out)]
    ran, the Results the consumer received, and whether a goroutine
    panicked (which ends the process).  The consumer is always ready
    to receive. *)
Record state : Type := mkState {
  pending : list string;
  descents : list descent;
  wg : nat;
  waiting : bool;
  closes : nat;
  out : list Result;
  crashed : bool
}.

(** [func (tz *TZgrep) Start(paths []string)], up to the loop. *)
Definition Start (paths : list string) : state :=
  mkState paths [] (List.length paths) true 0 [] false.

Definition launch (tz : TZgrep) (fs : FileSystem) (p : string) : descent :=
  mkDescent p [] (trace (findPath tz fs p)) (outcome (findPath tz fs p)) false.

Definition advance (g : descent) : descent :=
  match d_todo g with
  | [] => g
  | e :: rest => mkDescent (d_root g) (d_past g ++ [e]) rest (d_end g) (d_done g)
  end.

Definition finish (g : descent) : descent :=
  mkDescent (d_root g) (d_past g) (d_todo g) (d_end g) true.

Definition with_descents (s : state) (ds : list descent) : state :=
  mkState (pending s) ds (wg s) (waiting s) (closes s) (out s) (crashed s).

Definition crash (s : state) : state :=
  mkState (pending s) (descents s) (wg s) (waiting s) (closes s) (out s) true.

Definition closed (s : state) : state :=
  mkState (pending s) (descents s) (wg s) false (S (closes s)) (out s)
    (crashed s).

(** One step of one goroutine.  A goroutine that blocks for ever in a
    deferred Close takes none of these steps any more; the runs of the
    program are runs of this relation, possibly cut short ([stepC]
    below leaves the steps of such a goroutine out). *)
Inductive step (tz : TZgrep) (fs : FileSystem) : state -> state -> Prop :=
| step_launch s p ps :
    crashed s = false -> pending s = p :: ps ->
    step tz fs s
      (mkState ps (descents s ++ [launch tz fs p]) (wg s) (waiting s)
         (closes s) (out s) false)
| step_enter s l1 g l2 d c rest :
    crashed s = false -> descents s = l1 ++ g :: l2 ->
    d_todo g = Enter d c :: rest ->
    step tz fs s (with_descents s (l1 ++ advance g :: l2))
| step_send s l1 g l2 d r rest :
    crashed s = false -> descents s = l1 ++ g :: l2 ->
    d_todo g = Send d r :: rest -> closes s = 0 ->
    step tz fs s
      (mkState (pending s) (l1 ++ advance g :: l2) (wg s) (waiting s)
         (closes s) (out s ++ [r]) false)
| step_send_on_closed s l1 g l2 d r rest :
    crashed s = false -> descents s = l1 ++ g :: l2 ->
    d_todo g = Send d r :: rest -> closes s <> 0 ->
    step tz fs s (crash s)
| step_panic s l1 g l2 :
    crashed s = false -> descents s = l1 ++ g :: l2 ->
    d_todo g = [] -> d_end g = None ->
    step tz fs s (crash s)
| step_done s l1 g l2 n :
    crashed s = false -> descents s = l1 ++ g :: l2 ->
    d_todo g = [] -> d_end g = Some tt -> d_done g = false ->
    wg s = S n ->
    step tz fs s
      (mkState (pending s) (l1 ++ finish g :: l2) n (waiting s)
         (closes s) (out s) false)
| step_done_negative s l1 g l2 :
    crashed s = false -> descents s = l1 ++ g :: l2 ->
    d_todo g = [] -> d_end g = Some tt -> d_done g = false ->
    wg s = 0 ->
    step tz fs s (crash s)
| step_close s :
    crashed s = false -> waiting s = true -> wg s = 0 ->
    step tz fs s (closed s).

(** The states a run of [Start paths] passes through. *)
Inductive reachable (tz : TZgrep) (fs : FileSystem) (paths : list string)
  : state -> Prop :=
| reach_start : reachable tz fs paths (Start paths)
| reach_step s s' :
    reachable tz fs paths s -> step tz fs s s' -> reachable tz fs paths s'.

(** Every root is launched and every descent has returned and called
    [wg.Done()]. *)
Definition all_finished (s : state) : Prop :=
  pending s = [] /\
  Forall (fun g => d_todo g = [] /\ d_done g = true) (descents s).

(** The number of goroutines that have not called [wg.Done()]. *)
Definition active (ds : list descent) : nat :=
  List.length (filter (fun g => negb (d_done g)) ds).

(** What is left to do: a bound on the number of steps still possible. *)
Definition work_of (g : descent) : nat :=
  List.length (d_todo g) + (if d_done g then 0 else 1).

Definition work (tz : TZgrep) (fs : FileSystem) (s : state) : nat :=
  if crashed s then 0
  else
    1 + (if waiting s then 1 else 0)
    + list_sum (map (fun p => 2 + work_of (launch tz fs p)) (pending s))
    + list_sum (map work_of (descents s)).

(** A goroutine runs [findPath] on its root: what it did and what it
    has still to do make up the events of [findPath], in order, and it
    calls [wg.Done()] only after [findPath] returned. *)
Definition descent_ok (tz : TZgrep) (fs : FileSystem) (g : descent) : Prop :=
  d_past g ++ d_todo g = trace (findPath tz fs (d_root g)) /\
  d_end g = outcome (findPath tz fs (d_root g)) /\
  (d_done g = true -> d_todo g = [] /\ d_end g = Some tt).

(** The invariant of the dispatcher. *)
Record Inv (tz : TZgrep) (fs : FileSystem) (paths : list string) (s : state)
  : Prop := mkInv {
  inv_wg : wg s = List.length (pending s) + active (descents s);
  inv_descents : Forall (descent_ok tz fs) (descents s);
  inv_close :
    (waiting s = true /\ closes s = 0) \/
    (waiting s = false /\ closes s = 1 /\ wg s = 0);
  inv_out :
    forall r, In r (out s) <->
      exists g d, In g (descents s) /\ In (Send d r) (d_past g);
  inv_roots : map d_root (descents s) ++ pending s = paths;
  inv_crash :
    crashed s = true ->
    exists g, In g (descents s) /\ d_todo g = [] /\ d_end g = None
}.

Arguments inv_wg {tz fs paths s}.
Arguments inv_descents {tz fs paths s}.
Arguments inv_close {tz fs paths s}.
Arguments inv_out {tz fs paths s}.
Arguments inv_roots {tz fs paths s}.
Arguments inv_crash {tz fs paths s}.

(** The run of [Start ["leaf.txt"]] with the pattern [leaf]: launch,
    enter, send the match, return and call Done, close. *)
Module LeafRun.
Import Samples.

Definition the_match : Result := mkResult ["leaf.txt"] None.

Definition launched : state :=
  mkState []
    [mkDescent "leaf.txt" [] [Enter 0 ["leaf.txt"]; Send 0 the_match]
       (Some tt) false]
    1 true 0 [] false.

Definition entered : state :=
  mkState []
    [mkDescent "leaf.txt" [Enter 0 ["leaf.txt"]] [Send 0 the_match]
       (Some tt) false]
    1 true 0 [] false.

Definition sent : state :=
  mkState []
    [mkDescent "leaf.txt" [Enter 0 ["leaf.txt"]; Send 0 the_match] []
       (Some tt) false]
    1 true 0 [the_match] false.

Definition returned : state :=
  mkState []
    [mkDescent "leaf.txt" [Enter 0 ["leaf.txt"]; Send 0 the_match] []
       (Some tt) true]
    0 true 0 [the_match] false.

Definition final : state :=
  mkState []
    [mkDescent "leaf.txt" [Enter 0 ["leaf.txt"]; Send 0 the_match] []
       (Some tt) true]
    0 false 1 [the_match] false.

End LeafRun.

(** The chain an event carries and the depth of the frame it belongs
    to. *)
Definition chain_of (e : event) : list string :=
  match e with
  | Enter _ c => c
  | Send _ r => Path r
  end.

Definition depth_of (e : event) : nat :=
  match e with
  | Enter d _ => d
  | Send d _ => d
  end.

(* ================================================================== *)
(** ** Chains as Go slices *)

(** The traversal once more, with the chains as Go slices over backing
    arrays in a heap, to speak of the storage that chains share. *)
Module Slices.

(** A slice of strings: its backing array, its length and its
    capacity (every slice of this program starts at index 0). *)
Record slice : Type := mkSlice { ptr : nat; len : nat; cap : nat }.

(** The backing arrays, in the order of their allocation. *)
Definition heap : Type := list (list string).

Definition array_at (h : heap) (p : nat) : list string := nth p h [].

(** The strings of a slice. *)
Definition elems (h : heap) (s : slice) : list string :=
  firstn (len s) (array_at h (ptr s)).

Fixpoint store {A : Type} (l : list A) (i : nat) (x : A) : list A :=
  match l, i with
  | [], _ => []
  | _ :: l', 0 => x :: l'
  | a :: l', S i' => a :: store l' i' x
  end.

(** A slice that the heap holds. *)
Definition wf (h : heap) (s : slice) : Prop :=
  ptr s < List.length h /\ len s <= cap s /\
  cap s <= List.length (array_at h (ptr s)).

(** An event with the slice that carried its chain. *)
Definition hevent : Type := (slice * event)%type.

(** The backing arrays of the chains that [find] was called with. *)
Fixpoint enters (t : list hevent) : list nat :=
  match t with
  | [] => []
  | (s, Enter _ _) :: t' => ptr s :: enters t'
  | (_, Send _ _) :: t' => enters t'
  end.

(** Computations over the heap. *)
Definition HM (A : Type) : Type := heap -> list hevent * heap * option A.

Definition retH {A} (a : A) : HM A := fun h => ([], h, Some a).
Definition panicH {A} : HM A := fun h => ([], h, None).
Definition bindH {A B} (m : HM A) (f : A -> HM B) : HM B := fun h =>
  match m h with
  | (t, h1, Some a) =>
      match f a h1 with
      | (t', h2, b) => (t ++ t', h2, b)
      end
  | (t, h1, None) => (t, h1, None)
  end.

Notation "x <~ m ;; k" := (bindH m (fun x => k))
  (at level 61, m at next level, right associativity).
Notation "m ;;~ k" := (bindH m (fun _ => k))
  (at level 61, right associativity).

Definition enterH (d : nat) (s : slice) : HM unit := fun h =>
  ([(s, Enter d (elems h s))], h, Some tt).

(** [tz.Out <- Result{Path: s, Err: err}] *)
Definition sendH (d : nat) (s : slice) (err : option error) : HM unit :=
  fun h => ([(s, Send d (mkResult (elems h s) err))], h, Some tt).

(** [[]string{x}] *)
Definition literal (x : string) : HM slice := fun h =>
  ([], h ++ [[x]], Some (mkSlice (List.length h) 1 1)).

(** [s[i]]: panics when [i] is out of range. *)
Definition index (s : slice) (i : nat) : HM string := fun h =>
  if i <? len s then
    match nth_error (array_at h (ptr s)) i with
    | Some x => ([], h, Some x)
    | None => ([], h, None)
    end
  else ([], h, None).

(** [path[len(path)-1]] *)
Definition index_lastH (s : slice) : HM string :=
  match len s with
  | 0 => panicH
  | S i => index s i
  end.

(** [s[:hi:max]]: panics unless [hi <= max <= cap(s)]. *)
Definition full_slice (s : slice) (hi max : nat) : HM slice := fun h =>
  if (hi <=? max) && (max <=? cap s)
  then ([], h, Some (mkSlice (ptr s) hi max))
  else ([], h, None).

Section Runtime.

(** The capacity the runtime picks when [append] has to grow a slice
    of the given capacity to hold the given number of elements; it
    holds them at least. *)
Variable growcap : nat -> nat -> nat.

(** [append(s, x)]: writes in place when the capacity allows it, and
    copies to a new array otherwise. *)
Definition append (s : slice) (x : string) : HM slice := fun h =>
  if len s <? cap s then
    ([], store h (ptr s) (store (array_at h (ptr s)) (len s) x),
     Some (mkSlice (ptr s) (S (len s)) (cap s)))
  else
    let c := Nat.max (S (len s)) (growcap (cap s) (S (len s))) in
    ([], h ++ [elems h s ++ x :: repeat EmptyString (c - S (len s))],
     Some (mkSlice (List.length h) (S (len s)) c)).

(** [append(path[:len(path):len(path)], name)] *)
Definition extend (path : slice) (name : string) : HM slice :=
  s <~ full_slice path (len path) (len path) ;;
  append s name.

(** [find], on slices. *)
Fixpoint findH (tz : TZgrep) (depth : nat) (zr : stream) (path : slice)
  {struct zr} : HM unit :=
  enterH depth path ;;~
  name <~ index_lastH path ;;
  (if MatchString tz name then sendH depth path None else retH tt) ;;~
  match newDecompressor name with
  | (_, false) => retH tt
  | (None, true) => panicH
  | (Some zf, true) =>
      match zr with
      | Stream zopen =>
          match zopen zf with
          | ZRes r err =>
              (match err with
               | Some e => sendH depth path (Some e)
               | None => retH tt
               end) ;;~
              match r with
              | NilReader => panicH
              | TarReader nexts => iterateH tz depth nexts path
              end
          end
      end
  end
with iterateH (tz : TZgrep) (depth : nat) (nexts : tarlog) (path : slice)
  {struct nexts} : HM unit :=
  match nexts with
  | TEOF => retH tt
  | TErr e _ => sendH depth path (Some e)
  | THdr name body rest =>
      child <~ extend path name ;;
      findH tz (S depth) body child ;;~
      iterateH tz depth rest path
  end.

(** [findPath], on slices. *)
Definition findPathH (tz : TZgrep) (fs : FileSystem) (path : string)
  : HM unit :=
  let (f, err) := fs path in
  (match err with
   | Some e => s <~ literal path ;; sendH 0 s (Some e)
   | None => retH tt
   end) ;;~
  root <~ literal path ;;
  findH tz 0 f root.

End Runtime.

(** The slice an event carried holds, in the heap [h], the chain the
    event had when it happened. *)
Definition kept (h : heap) (e : hevent) : Prop :=
  wf h (fst e) /\ elems h (fst e) = chain_of (snd e).

(** A run on slices against the run on lists, from the heap [h]: the
    same events and the same end, a heap that only grew, and every
    chain kept. *)
Definition refines (h : heap) (res : list hevent * heap * option unit)
  (m : M unit) : Prop :=
  match res with
  | (t, h', o) =>
      map snd t = trace m /\ o = outcome m /\
      (exists new, h' = h ++ new) /\
      Forall (kept h') t
  end.

(** The arrays entered are new ones, each entered once. *)
Definition fresh (h : heap) (res : list hevent * heap * option unit)
  (ps : list nat) : Prop :=
  match res with
  | (_, h', _) =>
      NoDup ps /\ Forall (fun p => List.length h <= p < List.length h') ps
  end.

(** The events of a frame itself: sends of the frame's own slice. *)
Definition own_sends (h : heap) (s : slice) (pre : list hevent) : Prop :=
  Forall (fun e => exists d err,
            e = (s, Send d (mkResult (elems h s) err))) pre.

End Slices.

(* ================================================================== *)
(** ** Notions for the further properties *)

(** The suffixes that select a transform in [newDecompressor]. *)
Definition suffixes_of (zf : decompressor) : list string :=
  match zf with
  | Identity => tar_suffixes
  | Gzip => gzip_suffixes
  | Bzip2 => bzip2_suffixes
  | Xz => xz_suffixes
  | Zstd => zstd_suffixes
  end.

(** The chains of the match Results among events, in order. *)
Fixpoint match_chains (t : list event) : list (list string) :=
  match t with
  | [] => []
  | Send _ (mkResult c None) :: t' => c :: match_chains t'
  | _ :: t' => match_chains t'
  end.

(** The chains entered among events, in order. *)
Fixpoint entered_chains (t : list event) : list (list string) :=
  match t with
  | [] => []
  | Enter _ c :: t' => c :: entered_chains t'
  | Send _ _ :: t' => entered_chains t'
  end.

(** Whether the pattern matches the terminal name of a chain. *)
Definition matches_chain (tz : TZgrep) (c : list string) : bool :=
  match terminal c with
  | Some name => MatchString tz name
  | None => false
  end.

(** Whether every Result among the events [t] carries the chain and
    the depth of a frame entered before it, [seen] being the frames
    entered before [t]. *)
Fixpoint sends_entered (seen : list (nat * list string)) (t : list event)
  : Prop :=
  match t with
  | [] => True
  | Enter d c :: t' => sends_entered ((d, c) :: seen) t'
  | Send d r :: t' => In (d, Path r) seen /\ sends_entered seen t'
  end.

(** The frames entered among events, latest first. *)
Fixpoint frames (t : list event) : list (nat * list string) :=
  match t with
  | [] => []
  | Enter d c :: t' => frames t' ++ [(d, c)]
  | Send _ _ :: t' => frames t'
  end.

(** [l1] is [l2] with some elements left out, the order kept. *)
Inductive Subseq {A : Type} : list A -> list A -> Prop :=
| Subseq_nil : Subseq [] []
| Subseq_skip a l1 l2 : Subseq l1 l2 -> Subseq l1 (a :: l2)
| Subseq_take a l1 l2 : Subseq l1 l2 -> Subseq (a :: l1) (a :: l2).

(** The Results each goroutine has sent so far, per goroutine. *)
Definition sent (s : state) : list (list Result) :=
  map (fun g => results (d_past g)) (descents s).

(** The Results of the whole descent of each root, per root. *)
Definition results_of_roots (tz : TZgrep) (fs : FileSystem)
  (paths : list string) : list (list Result) :=
  map (fun p => results (trace (findPath tz fs p))) paths.

(** What a failure Result of [find] names: a chain whose terminal name
    is a container. *)
Definition names_container (e : event) : Prop :=
  match e with
  | Send _ (mkResult c (Some _)) =>
      exists name, terminal c = Some name /\ snd (newDecompressor name) = true
  | _ => True
  end.


(* ================================================================== *)
(** ** The deferred Close *)

(** The traversal once more, with [defer r.Close()] (line 73), which
    [find] above leaves out.  For the identity, gzip and bzip2
    transforms the reader is an [io.NopCloser] and Close returns; for
    xz and zstd it is a [splitCloser] whose Close is [cmd.Wait()]
    (lines 137-139), which does not return while the command still has
    output that nobody reads.  A frame whose Close does not return
    stops its goroutine for ever. *)
Module Closing.

(** How a computation ends: it returns, it panics, or it blocks for
    ever in a deferred Close. *)
Inductive ending : Type :=
| Returns
| Panics
| Blocks.

(** Whether [cmd.Wait()] returns, for the command started by the
    transform [zf] on the stream [zr], when the frame that started it
    is left. *)
Definition Waits : Type := stream -> decompressor -> bool.

(** Whether [r.Close()] returns, for the reader that [zf(zr)] gave. *)
Definition close_returns (wait : Waits) (zr : stream) (zf : decompressor)
  : bool :=
  match zf with
  | Identity | Gzip | Bzip2 => true
  | Xz | Zstd => wait zr zf
  end.

Definition C : Type := (list event * ending)%type.

Definition andThen (m k : C) : C :=
  match m with
  | (t, Returns) => let (t', e) := k in (t ++ t', e)
  | (t, e) => (t, e)
  end.

Definition send (d : nat) (r : Result) : C := ([Send d r], Returns).
Definition skip : C := ([], Returns).

(** The deferred call, run when the frame is left by a return or by a
    panic; a frame that a callee never came back to is not left. *)
Definition deferred (returns : bool) (m : C) : C :=
  match m with
  | (t, Blocks) => (t, Blocks)
  | (t, e) => if returns then (t, e) else (t, Blocks)
  end.

(** [find], with the deferred Close.  A nil reader panics before a
    Close that could block is reached: at the [defer] statement itself
    for the nil interface of a failed xz or zstd transform, at
    [tr.Next()] under a no-op Close for gzip. *)
Fixpoint findC (tz : TZgrep) (wait : Waits) (depth : nat) (zr : stream)
  (path : list string) {struct zr} : C :=
  match terminal path with
  | None => ([Enter depth path], Panics)
  | Some name =>
      andThen ([Enter depth path], Returns)
     (andThen (if MatchString tz name
               then send depth (mkResult path None) else skip)
        match newDecompressor name with
        | (_, false) => skip
        | (None, true) => ([], Panics)
        | (Some zf, true) =>
            match zr with
            | Stream zopen =>
                match zopen zf with
                | ZRes r err =>
                    andThen
                      (match err with
                       | Some e => send depth (mkResult path (Some e))
                       | None => skip
                       end)
                      match r with
                      | NilReader => ([], Panics)
                      | TarReader nexts =>
                          deferred (close_returns wait zr zf)
                            (iterateC tz wait depth nexts path)
                      end
                end
            end
        end)
  end
with iterateC (tz : TZgrep) (wait : Waits) (depth : nat) (nexts : tarlog)
  (path : list string) {struct nexts} : C :=
  match nexts with
  | TEOF => skip
  | TErr e _ => send depth (mkResult path (Some e))
  | THdr name body rest =>
      andThen (findC tz wait (S depth) body (path ++ [name]))
              (iterateC tz wait depth rest path)
  end.

(** [findPath], with its [defer f.Close()], which returns. *)
Definition findPathC (tz : TZgrep) (wait : Waits) (fs : FileSystem)
  (path : string) : C :=
  let (f, err) := fs path in
  andThen (match err with
           | Some e => send 0 (mkResult [path] (Some e))
           | None => skip
           end)
          (deferred true (findC tz wait 0 f [path])).

(** The goroutine has done all it does before it blocks for ever. *)
Definition hangs (tz : TZgrep) (wait : Waits) (fs : FileSystem) (g : descent)
  : Prop :=
  snd (findPathC tz wait fs (d_root g)) = Blocks /\
  d_past g = fst (findPathC tz wait fs (d_root g)).

(** A step of the goroutine [g]: the steps of [step] other than the
    launch and the close. *)
Inductive acts : state -> descent -> state -> Prop :=
| acts_enter s l1 g l2 d c rest :
    crashed s = false -> descents s = l1 ++ g :: l2 ->
    d_todo g = Enter d c :: rest ->
    acts s g (with_descents s (l1 ++ advance g :: l2))
| acts_send s l1 g l2 d r rest :
    crashed s = false -> descents s = l1 ++ g :: l2 ->
    d_todo g = Send d r :: rest -> closes s = 0 ->
    acts s g
      (mkState (pending s) (l1 ++ advance g :: l2) (wg s) (waiting s)
         (closes s) (out s ++ [r]) false)
| acts_send_on_closed s l1 g l2 d r rest :
    crashed s = false -> descents s = l1 ++ g :: l2 ->
    d_todo g = Send d r :: rest -> closes s <> 0 ->
    acts s g (crash s)
| acts_panic s l1 g l2 :
    crashed s = false -> descents s = l1 ++ g :: l2 ->
    d_todo g = [] -> d_end g = None ->
    acts s g (crash s)
| acts_done s l1 g l2 n :
    crashed s = false -> descents s = l1 ++ g :: l2 ->
    d_todo g = [] -> d_end g = Some tt -> d_done g = false ->
    wg s = S n ->
    acts s g
      (mkState (pending s) (l1 ++ finish g :: l2) n (waiting s)
         (closes s) (out s) false)
| acts_done_negative s l1 g l2 :
    crashed s = false -> descents s = l1 ++ g :: l2 ->
    d_todo g = [] -> d_end g = Some tt -> d_done g = false ->
    wg s = 0 ->
    acts s g (crash s).

(** The steps of the process when a goroutine that hangs in a Close
    takes no step any more. *)
Inductive stepC (tz : TZgrep) (wait : Waits) (fs : FileSystem)
  : state -> state -> Prop :=
| stepC_launch s p ps :
    crashed s = false -> pending s = p :: ps ->
    stepC tz wait fs s
      (mkState ps (descents s ++ [launch tz fs p]) (wg s) (waiting s)
         (closes s) (out s) false)
| stepC_acts s g s' :
    acts s g s' -> ~ hangs tz wait fs g -> stepC tz wait fs s s'
| stepC_close s :
    crashed s = false -> waiting s = true -> wg s = 0 ->
    stepC tz wait fs s (closed s).

Inductive reachableC (tz : TZgrep) (wait : Waits) (fs : FileSystem)
  (paths : list string) : state -> Prop :=
| reachC_start : reachableC tz wait fs paths (Start paths)
| reachC_step s s' :
    reachableC tz wait fs paths s -> stepC tz wait fs s s' ->
    reachableC tz wait fs paths s'.

(** What [find] says of an ending that is not a block. *)
Definition outcome_of (e : ending) : option unit :=
  match e with
  | Returns => Some tt
  | _ => None
  end.

(** A computation with Close against the one without: it does the
    same events as far as it gets, and all of them with the same end
    unless it blocks. *)
Definition agrees (c : C) (m : M unit) : Prop :=
  (exists t2, trace m = fst c ++ t2) /\
  (snd c <> Blocks -> m = (fst c, outcome_of (snd c))).

(** A world in which the goroutine of a root blocks: [big.tar.xz]
    holds [x.txt] and then a broken header; the loop breaks and the
    command still has output, so [cmd.Wait()] does not return. *)
Definition big_xz : stream :=
  Stream (fun zf =>
    match zf with
    | Xz => ZRes (TarReader
              (THdr "x.txt" Samples.plain
                 (TErr "archive/tar: invalid tar header" TEOF))) None
    | Gzip => ZRes NilReader (Some "gzip: invalid header")
    | _ => ZRes (TarReader (TErr "unexpected EOF" TEOF)) None
    end).

Definition xz_disk : FileSystem := fun path =>
  if String.eqb path "big.tar.xz" then (big_xz, None)
  else Samples.disk path.

Definition never_returns : Waits := fun _ _ => false.
Definition always_returns : Waits := fun _ _ => true.

(** The state in which the goroutine of [big.tar.xz] has sent its
    failure and hangs in the Close. *)
Definition hung : state :=
  mkState []
    [mkDescent "big.tar.xz"
       [Enter 0 ["big.tar.xz"]; Enter 1 ["big.tar.xz"; "x.txt"];
        Send 0 (mkResult ["big.tar.xz"]
                  (Some "archive/tar: invalid tar header"))]
       [] (Some tt) false]
    1 true 0
    [mkResult ["big.tar.xz"] (Some "archive/tar: invalid tar header")]
    false.

End Closing.
(* ================================================================== *)
(** ** Suffix tests *)

Module SuffixFacts.

Lemma chars_app (a b : string) : chars (a ++ b)%string = chars a ++ chars b.
Proof. induction a as [|c a IH]; simpl; [reflexivity | now rewrite IH]. Qed.

Lemma chars_inj (a b : string) : chars a = chars b -> a = b.
Proof.
  intros H. rewrite <- (string_of_list_ascii_of_string a),
    <- (string_of_list_ascii_of_string b). unfold chars in H. now rewrite H.
Qed.

Lemma chars_length (a : string) : List.length (chars a) = String.length a.
Proof. induction a; simpl; congruence. Qed.

Lemma length_append (a b : string) :
  String.length (a ++ b)%string = String.length a + String.length b.
Proof. induction a; simpl; congruence. Qed.

Lemma substring_all (s : string) : substring 0 (String.length s) s = s.
Proof. induction s; simpl; congruence. Qed.

Lemma substring_append (pre suf : string) :
  substring (String.length pre) (String.length suf) (pre ++ suf)%string = suf.
Proof. induction pre; simpl; [apply substring_all | assumption]. Qed.

Lemma substring_split (n : nat) (s : string) :
  n <= String.length s ->
  exists pre, String.length pre = n /\
    s = (pre ++ substring n (String.length s - n) s)%string.
Proof.
  revert s. induction n as [|n IH]; intros s Hn.
  - exists EmptyString. rewrite Nat.sub_0_r, substring_all. now split.
  - destruct s as [|c s]; simpl in Hn; [lia|].
    destruct (IH s) as [pre [Hl He]]; [lia|].
    exists (String c pre). simpl. split; [congruence|]. now rewrite <- He.
Qed.

(** [strings.HasSuffix] decides that [suffix] ends [s]. *)
Lemma HasSuffix_spec (s suffix : string) :
  HasSuffix s suffix = true <-> exists pre, s = (pre ++ suffix)%string.
Proof.
  unfold HasSuffix. rewrite andb_true_iff, Nat.leb_le, String.eqb_eq. split.
  - intros [Hle Hsub].
    destruct (substring_split (String.length s - String.length suffix) s)
      as [pre [Hl He]]; [lia|].
    exists pre. rewrite He at 1. f_equal.
    replace (String.length s - (String.length s - String.length suffix))
      with (String.length suffix) by lia. exact Hsub.
  - intros [pre ->]. rewrite length_append. split; [lia|].
    replace (String.length pre + String.length suffix - String.length suffix)
      with (String.length pre) by lia.
    apply substring_append.
Qed.

Lemma prefixb_spec (p l : list ascii) :
  prefixb p l = true <-> exists r, l = p ++ r.
Proof.
  revert l. induction p as [|a p IH]; intros l; simpl.
  - split; [intros _; now exists l | reflexivity].
  - destruct l as [|b l].
    + split; [discriminate | intros [r Hr]; discriminate].
    + rewrite andb_true_iff, Ascii.eqb_eq, IH. split.
      * intros [-> [r ->]]. now exists r.
      * intros [r Hr]. injection Hr as -> ->. split; [reflexivity | now exists r].
Qed.

(** A suffix test is a prefix test on the reversed names. *)
Lemma HasSuffix_rev (s suffix : string) :
  HasSuffix s suffix = prefixb (rev (chars suffix)) (rev (chars s)).
Proof.
  apply eq_true_iff_eq. rewrite HasSuffix_spec, prefixb_spec. split.
  - intros [pre ->]. exists (rev (chars pre)).
    now rewrite chars_app, rev_app_distr.
  - intros [r Hr]. exists (string_of_list_ascii (rev r)).
    apply chars_inj. rewrite chars_app. unfold chars at 3.
    rewrite list_ascii_of_string_of_list_ascii.
    apply (f_equal (@rev ascii)) in Hr.
    now rewrite rev_involutive, rev_app_distr, rev_involutive in Hr.
Qed.

Lemma ToLower_app (a b : string) :
  ToLower (a ++ b)%string = (ToLower a ++ ToLower b)%string.
Proof. induction a; simpl; congruence. Qed.

Lemma lower_ascii_idem (c : ascii) : lower_ascii (lower_ascii c) = lower_ascii c.
Proof.
  destruct c as [[] [] [] [] [] [] [] []]; reflexivity.
Qed.

Lemma ToLower_idem (s : string) : ToLower (ToLower s) = ToLower s.
Proof. induction s; simpl; [reflexivity|]. now rewrite lower_ascii_idem, IHs. Qed.

(** The suffix test of a name that ends, once lowered, in [k]: the
    reversed name starts with the reversed [k]. *)
Lemma HasSuffix_lowered (pre suf k suffix : string) :
  ToLower suf = k ->
  HasSuffix (ToLower (pre ++ suf)%string) suffix
  = prefixb (rev (chars suffix)) (rev (chars k) ++ rev (chars (ToLower pre))).
Proof.
  intros <-. now rewrite HasSuffix_rev, ToLower_app, chars_app, rev_app_distr.
Qed.

End SuffixFacts.
Import SuffixFacts.

(** Solves a classification goal for a name whose lowered suffix is a
    known literal, by running the suffix tests on the reversed name. *)
Ltac classify_suffix H :=
  unfold newDecompressor, tar_suffixes, gzip_suffixes, bzip2_suffixes,
    xz_suffixes, zstd_suffixes, hasSuffixes;
  rewrite !(HasSuffix_lowered _ _ _ _ H); reflexivity.

Lemma classify_tar_gz (pre suf : string) :
  ToLower suf = ".tar.gz" -> newDecompressor (pre ++ suf)%string = (Some Gzip, true).
Proof. intros H. classify_suffix H. Qed.

Lemma classify_tgz (pre suf : string) :
  ToLower suf = ".tgz" -> newDecompressor (pre ++ suf)%string = (Some Gzip, true).
Proof. intros H. classify_suffix H. Qed.

Lemma classify_taz (pre suf : string) :
  ToLower suf = ".taz" -> newDecompressor (pre ++ suf)%string = (Some Gzip, true).
Proof. intros H. classify_suffix H. Qed.

Lemma classify_tar (pre suf : string) :
  ToLower suf = ".tar" ->
  newDecompressor (pre ++ suf)%string = (Some Identity, true).
Proof. intros H. classify_suffix H. Qed.

Lemma classify_tar_bz (pre suf : string) :
  ToLower suf = ".tar.bz" ->
  newDecompressor (pre ++ suf)%string = (Some Bzip2, true).
Proof. intros H. classify_suffix H. Qed.

Lemma classify_tar_zstd (pre suf : string) :
  ToLower suf = ".tar.zstd" ->
  newDecompressor (pre ++ suf)%string = (Some Zstd, true).
Proof. intros H. classify_suffix H. Qed.

Lemma hasSuffixes_false (s : string) (l : list string) :
  (forall k, In k l -> HasSuffix s k = false) -> hasSuffixes s l = false.
Proof.
  induction l as [|k l IH]; intros H; simpl; [reflexivity|].
  rewrite (H k (or_introl eq_refl)). apply IH. intros k' Hk'.
  apply H. now right.
Qed.

Lemma classify_unknown (name : string) :
  (forall k, In k known_suffixes -> HasSuffix (ToLower name) k = false) ->
  newDecompressor name = (None, false).
Proof.
  intros H. unfold newDecompressor.
  rewrite !hasSuffixes_false; [reflexivity | ..];
    intros k Hk; apply H; unfold known_suffixes; rewrite !in_app_iff; tauto.
Qed.

(** C6. The classifier is a function of the lowered name alone (two
    names that agree up to ASCII case classify alike); a name that ends,
    up to case, in [.tar.gz], [.tgz] or [.taz] gets the gzip transform
    and is a container; one that ends in [.tar] gets the identity
    transform and is a container; a name whose lowered form ends in no
    suffix of the table is not a container. *)
Theorem classify_by_suffix (name : string) :
  (forall pre suf, name = (pre ++ suf)%string ->
     In (ToLower suf) gzip_suffixes ->
     newDecompressor name = (Some Gzip, true)) /\
  (forall pre suf, name = (pre ++ suf)%string ->
     ToLower suf = ".tar" ->
     newDecompressor name = (Some Identity, true)) /\
  ((forall k, In k known_suffixes -> HasSuffix (ToLower name) k = false) ->
     newDecompressor name = (None, false)) /\
  (forall other, ToLower other = ToLower name ->
     newDecompressor other = newDecompressor name).
Proof.
  repeat split.
  - intros pre suf -> Hin. simpl in Hin.
    destruct Hin as [H | [H | [H | []]]]; symmetry in H.
    + now apply classify_tar_gz.
    + now apply classify_tgz.
    + now apply classify_taz.
  - intros pre suf -> H. now apply classify_tar.
  - apply classify_unknown.
  - intros other H. unfold newDecompressor. now rewrite H.
Qed.

Lemma classify_by_suffix_witness :
  newDecompressor "Backup.TGZ" = (Some Gzip, true) /\
  newDecompressor "logs.Tar" = (Some Identity, true) /\
  newDecompressor "leaf.txt" = (None, false) /\
  newDecompressor "A.TAR.GZ" = newDecompressor "a.tar.gz".
Proof.
  split; [| split; [| split]].
  - apply (proj1 (classify_by_suffix "Backup.TGZ") "Backup" ".TGZ");
      [reflexivity | simpl; tauto].
  - apply (proj1 (proj2 (classify_by_suffix "logs.Tar")) "logs" ".Tar");
      reflexivity.
  - apply (proj1 (proj2 (proj2 (classify_by_suffix "leaf.txt")))).
    intros k Hk. simpl in Hk.
    repeat (destruct Hk as [<- | Hk]; [reflexivity|]). destruct Hk.
  - apply (proj2 (proj2 (proj2 (classify_by_suffix "a.tar.gz")))).
    reflexivity.
Defined.

(** C9. The table also knows [.tar.bz], read with the bzip2 transform,
    and [.tar.zstd], read with the zstd transform, up to case; both
    make the name a container. *)
Theorem classify_extra_suffixes (pre suf : string) :
  (ToLower suf = ".tar.bz" ->
     newDecompressor (pre ++ suf)%string = (Some Bzip2, true)) /\
  (ToLower suf = ".tar.zstd" ->
     newDecompressor (pre ++ suf)%string = (Some Zstd, true)).
Proof. split; [apply classify_tar_bz | apply classify_tar_zstd]. Qed.

Lemma classify_extra_suffixes_witness :
  newDecompressor "old.Tar.BZ" = (Some Bzip2, true) /\
  newDecompressor "new.TAR.zstd" = (Some Zstd, true).
Proof.
  split.
  - apply (proj1 (classify_extra_suffixes "old" ".Tar.BZ")). reflexivity.
  - apply (proj2 (classify_extra_suffixes "new" ".TAR.zstd")). reflexivity.
Defined.

(* ================================================================== *)
(** ** Facts about computations *)

Lemma trace_bind {A B} (m : M A) (f : A -> M B) :
  trace (bind m f)
  = trace m ++ match outcome m with Some a => trace (f a) | None => [] end.
Proof.
  destruct m as [t [a|]]; simpl.
  - now destruct (f a).
  - now rewrite app_nil_r.
Qed.

Lemma outcome_bind {A B} (m : M A) (f : A -> M B) :
  outcome (bind m f)
  = match outcome m with Some a => outcome (f a) | None => None end.
Proof. destruct m as [t [a|]]; simpl; [now destruct (f a) | reflexivity]. Qed.

Lemma results_app (t1 t2 : list event) :
  results (t1 ++ t2) = results t1 ++ results t2.
Proof.
  induction t1 as [|[d p|d r] t1 IH]; simpl; [reflexivity | assumption |].
  now rewrite IH.
Qed.

Lemma terminal_snoc (path : list string) (name : string) :
  terminal (path ++ [name]) = Some name.
Proof. unfold terminal. now rewrite rev_app_distr. Qed.

Lemma terminal_some (path : list string) :
  path <> [] -> exists name, terminal path = Some name.
Proof.
  intros H. destruct (exists_last H) as [l [a ->]]. exists a.
  apply terminal_snoc.
Qed.

Section TraversalFacts.

Variable tz : TZgrep.

Lemma find_eq (d : nat) (zr : stream) (path : list string) :
  find tz d zr path
  = (emit (Enter d path) ;;;
     name <- index_last path ;;
     (if MatchString tz name then emit (Send d (mkResult path None))
      else ret tt) ;;;
     descend tz d zr name path).
Proof. destruct zr as [zopen]. reflexivity. Qed.

Lemma find_trace (d : nat) (zr : stream) (path : list string) :
  trace (find tz d zr path)
  = visit tz d path ++
    match terminal path with
    | Some name => trace (descend tz d zr name path)
    | None => []
    end.
Proof.
  rewrite find_eq. unfold visit, index_last.
  destruct (terminal path) as [name|]; [|reflexivity].
  unfold emit, ret, bind; cbv beta iota.
  destruct (MatchString tz name);
    destruct (descend tz d zr name path) as [t o]; destruct o; reflexivity.
Qed.

Lemma find_outcome (d : nat) (zr : stream) (path : list string) :
  outcome (find tz d zr path)
  = match terminal path with
    | Some name => outcome (descend tz d zr name path)
    | None => None
    end.
Proof.
  rewrite find_eq. unfold index_last.
  destruct (terminal path) as [name|]; [|reflexivity].
  unfold emit, ret, bind; cbv beta iota.
  destruct (MatchString tz name);
    destruct (descend tz d zr name path) as [t o]; destruct o; reflexivity.
Qed.

Lemma iterate_hdr_trace d name body rest path :
  trace (iterate tz d (THdr name body rest) path)
  = trace (find tz (S d) body (path ++ [name])) ++
    match outcome (find tz (S d) body (path ++ [name])) with
    | Some _ => trace (iterate tz d rest path)
    | None => []
    end.
Proof. simpl iterate. now rewrite trace_bind. Qed.

Lemma iterate_hdr_outcome d name body rest path :
  outcome (iterate tz d (THdr name body rest) path)
  = match outcome (find tz (S d) body (path ++ [name])) with
    | Some _ => outcome (iterate tz d rest path)
    | None => None
    end.
Proof. simpl iterate. now rewrite outcome_bind. Qed.

Lemma descend_trace d zr name path :
  trace (descend tz d zr name path)
  = match newDecompressor name with
    | (Some zf, true) =>
        match zopen_of zr zf with
        | ZRes r err =>
            match err with
            | Some e => [Send d (mkResult path (Some e))]
            | None => []
            end ++
            match r with
            | NilReader => []
            | TarReader nexts => trace (iterate tz d nexts path)
            end
        end
    | _ => []
    end.
Proof.
  unfold descend. destruct (newDecompressor name) as [[zf|] [|]]; try reflexivity.
  destruct (zopen_of zr zf) as [r err]. rewrite trace_bind.
  destruct err, r; reflexivity.
Qed.

Lemma descend_outcome d zr name path :
  outcome (descend tz d zr name path)
  = match newDecompressor name with
    | (_, false) => Some tt
    | (None, true) => None
    | (Some zf, true) =>
        match zopen_of zr zf with
        | ZRes NilReader _ => None
        | ZRes (TarReader nexts) _ => outcome (iterate tz d nexts path)
        end
    end.
Proof.
  unfold descend. destruct (newDecompressor name) as [[zf|] [|]]; try reflexivity.
  destruct (zopen_of zr zf) as [r err]. rewrite outcome_bind.
  destruct err, r; reflexivity.
Qed.

(** Induction over a traversal: a property of event sequences that
    holds of the empty sequence, of one frame's own events and of a
    failure report, and that concatenation preserves, holds of every
    trace of [find]. *)
Lemma find_trace_ind (Q : list event -> Prop) :
  Q [] ->
  (forall t1 t2, Q t1 -> Q t2 -> Q (t1 ++ t2)) ->
  (forall d path, Q (visit tz d path)) ->
  (forall d path e, Q [Send d (mkResult path (Some e))]) ->
  forall zr d path, Q (trace (find tz d zr path)).
Proof.
  intros Hnil Happ Hvisit Hfail.
  apply (stream_mut
    (fun zr => forall d path, Q (trace (find tz d zr path)))
    (fun z => match z with
              | ZRes (TarReader nexts) _ =>
                  forall d path, Q (trace (iterate tz d nexts path))
              | ZRes NilReader _ => True
              end)
    (fun r => match r with
              | TarReader nexts =>
                  forall d path, Q (trace (iterate tz d nexts path))
              | NilReader => True
              end)
    (fun nexts => forall d path, Q (trace (iterate tz d nexts path)))).
  - intros zopen IH d path. rewrite find_trace. apply Happ; [apply Hvisit|].
    destruct (terminal path) as [name|]; [|exact Hnil].
    rewrite descend_trace.
    destruct (newDecompressor name) as [[zf|] [|]]; try exact Hnil.
    simpl zopen_of. specialize (IH zf). destruct (zopen zf) as [r err].
    apply Happ.
    + destruct err; [apply Hfail | exact Hnil].
    + destruct r; [exact Hnil | apply IH].
  - intros r IH err. destruct r; [exact I | exact IH].
  - exact I.
  - intros nexts IH. exact IH.
  - intros d path. exact Hnil.
  - intros e rest _ d path. apply Hfail.
  - intros name body IHb rest IHr d path. rewrite iterate_hdr_trace.
    apply Happ; [apply IHb|].
    destruct (outcome (find tz (S d) body (path ++ [name]))); [apply IHr | exact Hnil].
Qed.

Lemma below_step d path name e :
  below (S d) (path ++ [name]) e -> below d path e.
Proof.
  destruct e as [d' c | d' r]; intros [ext [H1 H2]]; exists (name :: ext);
    (split; [rewrite H1, <- app_assoc; reflexivity | simpl; lia]).
Qed.

Lemma below_here_enter d path : below d path (Enter d path).
Proof. exists []. rewrite app_nil_r. simpl. split; [reflexivity | lia]. Qed.

Lemma below_here_send d path err : below d path (Send d (mkResult path err)).
Proof. exists []. simpl. rewrite app_nil_r. split; [reflexivity | lia]. Qed.

Lemma find_below :
  forall zr d path, Forall (below d path) (trace (find tz d zr path)).
Proof.
  apply (stream_mut
    (fun zr => forall d path, Forall (below d path) (trace (find tz d zr path)))
    (fun z => match z with
              | ZRes (TarReader nexts) _ =>
                  forall d path,
                    Forall (below d path) (trace (iterate tz d nexts path))
              | ZRes NilReader _ => True
              end)
    (fun r => match r with
              | TarReader nexts =>
                  forall d path,
                    Forall (below d path) (trace (iterate tz d nexts path))
              | NilReader => True
              end)
    (fun nexts => forall d path,
       Forall (below d path) (trace (iterate tz d nexts path)))).
  - intros zopen IH d path. rewrite find_trace. apply Forall_app. split.
    + unfold visit. constructor; [apply below_here_enter|].
      destruct (terminal path) as [name|]; [|constructor].
      destruct (MatchString tz name); repeat constructor.
      apply below_here_send.
    + destruct (terminal path) as [name|]; [|constructor].
      rewrite descend_trace.
      destruct (newDecompressor name) as [[zf|] [|]]; try constructor.
      simpl zopen_of. specialize (IH zf). destruct (zopen zf) as [r err].
      apply Forall_app. split.
      * destruct err; repeat constructor. apply below_here_send.
      * destruct r; [constructor | apply IH].
  - intros r IH err. destruct r; [exact I | exact IH].
  - exact I.
  - intros nexts IH. exact IH.
  - intros d path. constructor.
  - intros e rest _ d path. repeat constructor. apply below_here_send.
  - intros name body IHb rest IHr d path. rewrite iterate_hdr_trace.
    apply Forall_app. split.
    + eapply Forall_impl; [|apply IHb]. intros e. apply below_step.
    + destruct (outcome (find tz (S d) body (path ++ [name])));
        [apply IHr | constructor].
Qed.

End TraversalFacts.

(* ================================================================== *)
(** ** The spec's scenarios, run *)

Module Scenarios.
Import Samples.

(** Scenario A: a leaf that matches. *)
Example scenario_A :
  findPath (mkTZgrep (String.prefix "leaf")) disk "leaf.txt"
  = ([Enter 0 ["leaf.txt"]; Send 0 (mkResult ["leaf.txt"] None)], Some tt).
Proof. reflexivity. Qed.

(** Scenario B: a match two containers deep. *)
Example scenario_B :
  results (trace (findPath pattern_y disk "a.tar"))
  = [mkResult ["a.tar"; "inner.tar.gz"; "y.txt"] None]
  /\ outcome (findPath pattern_y disk "a.tar") = Some tt.
Proof. split; reflexivity. Qed.

End Scenarios.

(* ================================================================== *)
(** ** Sequencing laws *)

Lemma bind_ret_l {A B} (a : A) (f : A -> M B) : bind (ret a) f = f a.
Proof. unfold bind, ret. now destruct (f a). Qed.

Lemma bind_assoc {A B C} (m : M A) (f : A -> M B) (g : B -> M C) :
  bind (bind m f) g = bind m (fun a => bind (f a) g).
Proof.
  destruct m as [t [a|]]; simpl; [|reflexivity].
  destruct (f a) as [t' [b|]]; simpl; [|reflexivity].
  destruct (g b) as [t'' c]. now rewrite app_assoc.
Qed.

Lemma failures_at_app (path : list string) (t1 t2 : list event) :
  failures_at path (t1 ++ t2) = failures_at path t1 ++ failures_at path t2.
Proof.
  induction t1 as [|[d c|d [p [e|]]] t1 IH]; simpl; try assumption;
    [reflexivity|].
  destruct (list_eq_dec string_dec p path); simpl; congruence.
Qed.

Lemma failures_at_below (d : nat) (path : list string) (name : string)
  (t : list event) :
  Forall (below (S d) (path ++ [name])) t -> failures_at path t = [].
Proof.
  induction 1 as [|e t He _ IH]; [reflexivity|].
  destruct e as [d' c|d' [p [e|]]]; simpl; try assumption.
  destruct (list_eq_dec string_dec p path) as [->|]; [|assumption].
  destruct He as [ext [Hp _]]. simpl in Hp.
  apply (f_equal (@List.length string)) in Hp.
  rewrite !length_app in Hp. simpl in Hp. lia.
Qed.

Section IterationFacts.

Variable tz : TZgrep.

Lemma iterate_entries d hs tail path :
  iterate tz d (entries hs tail) path
  = (visit_all tz d hs path ;;; iterate tz d tail path).
Proof.
  induction hs as [|[name body] hs IH]; cbn [entries visit_all iterate].
  - now rewrite bind_ret_l.
  - now rewrite IH, bind_assoc.
Qed.

Lemma visit_all_failures d hs path :
  failures_at path (trace (visit_all tz d hs path)) = [].
Proof.
  induction hs as [|[name body] hs IH]; [reflexivity|].
  simpl visit_all. rewrite trace_bind, failures_at_app.
  rewrite (failures_at_below d path name _
             (find_below tz body (S d) (path ++ [name]))).
  destruct (outcome (find tz (S d) body (path ++ [name]))); [exact IH | reflexivity].
Qed.

Lemma visit_all_enters d hs path :
  outcome (visit_all tz d hs path) = Some tt ->
  forall name body, In (name, body) hs ->
    In (Enter (S d) (path ++ [name])) (trace (visit_all tz d hs path)).
Proof.
  induction hs as [|[n b] hs IH]; intros Hret name body Hin; [destruct Hin|].
  simpl visit_all in *. rewrite outcome_bind in Hret. rewrite trace_bind.
  apply in_or_app.
  destruct (outcome (find tz (S d) b (path ++ [n]))) as [[]|] eqn:Ho;
    [|discriminate].
  destruct Hin as [Heq | Hin].
  - injection Heq as -> ->. left. rewrite find_trace. left. reflexivity.
  - right. now apply (IH Hret name body).
Qed.

(** Every tar stream is a run of headers followed by an end of stream
    or by an error. *)
Lemma tarlog_split (nexts : tarlog) :
  exists hs, nexts = entries hs TEOF \/
             exists e rest, nexts = entries hs (TErr e rest).
Proof.
  induction nexts as [|e rest _|name body rest [hs IH]].
  - exists []. now left.
  - exists []. right. now exists e, rest.
  - exists ((name, body) :: hs). destruct IH as [-> | [e [r ->]]].
    + now left.
    + right. now exists e, r.
Qed.

(** C5. Iterating a container whose tar stream answers the headers
    [hs] and then an error [e]: the entries [hs] are descended into in
    order, then one failure Result with the container's chain and [e]
    is sent and the loop ends, whatever the stream would answer next
    ([rest] is never asked for); when the stream ends after [hs], the
    loop ends after the descents and sends nothing of its own.  No
    descent into an entry sends a failure with the container's chain,
    so when the descents return there is exactly one such failure in
    the first case and none in the second. *)
Theorem tar_read_error_ends_iteration d hs e rest path :
  iterate tz d (entries hs (TErr e rest)) path
  = (visit_all tz d hs path ;;; emit (Send d (mkResult path (Some e)))) /\
  iterate tz d (entries hs TEOF) path = visit_all tz d hs path /\
  (outcome (visit_all tz d hs path) = Some tt ->
     failures_at path (trace (iterate tz d (entries hs (TErr e rest)) path))
       = [e] /\
     outcome (iterate tz d (entries hs (TErr e rest)) path) = Some tt /\
     failures_at path (trace (iterate tz d (entries hs TEOF) path)) = [] /\
     outcome (iterate tz d (entries hs TEOF) path) = Some tt).
Proof.
  assert (H1 : iterate tz d (entries hs (TErr e rest)) path
    = (visit_all tz d hs path ;;; emit (Send d (mkResult path (Some e)))))
    by (rewrite iterate_entries; reflexivity).
  assert (H2 : iterate tz d (entries hs TEOF) path = visit_all tz d hs path).
  { rewrite iterate_entries. simpl iterate.
    destruct (visit_all tz d hs path) as [t [[]|]]; unfold bind, ret; simpl;
      now rewrite ?app_nil_r. }
  split; [exact H1 | split; [exact H2 |]].
  intros Hret. rewrite H1, H2, trace_bind, outcome_bind, failures_at_app.
  rewrite visit_all_failures, Hret. simpl.
  destruct (list_eq_dec string_dec path path) as [_|Hne]; [|now destruct Hne].
  repeat split; reflexivity.
Qed.

End IterationFacts.

Lemma tar_read_error_ends_iteration_witness :
  let gz := Samples.gzipped [("y.txt", Samples.plain)] in
  failures_at ["a.tar"]
    (trace (iterate Samples.pattern_y 0
              (entries [("x.txt", Samples.plain)]
                 (TErr "archive/tar: invalid tar header"
                    (THdr "inner.tar.gz" gz TEOF))) ["a.tar"]))
  = ["archive/tar: invalid tar header"].
Proof.
  intros gz.
  apply (proj2 (proj2 (tar_read_error_ends_iteration Samples.pattern_y 0
    [("x.txt", Samples.plain)] "archive/tar: invalid tar header"
    (THdr "inner.tar.gz" gz TEOF) ["a.tar"]))).
  reflexivity.
Defined.

(* ================================================================== *)
(** ** Matching and recursion on one node *)

Section NodeFacts.

Variable tz : TZgrep.

Lemma find_split d zr path name :
  terminal path = Some name ->
  find tz d zr path
  = (emit (Enter d path) ;;;
     (if MatchString tz name then emit (Send d (mkResult path None))
      else ret tt) ;;;
     descend tz d zr name path).
Proof.
  intros Ht. rewrite find_eq. unfold index_last. rewrite Ht.
  unfold emit, ret, bind; cbv beta iota.
  destruct (MatchString tz name);
    destruct (descend tz d zr name path) as [t o]; destruct o; reflexivity.
Qed.

Lemma find_leaf d zr path name :
  terminal path = Some name ->
  snd (newDecompressor name) = false ->
  find tz d zr path = (visit tz d path, Some tt).
Proof.
  intros Ht Hc. rewrite (find_split d zr path name Ht). unfold visit, descend.
  rewrite Ht. destruct (newDecompressor name) as [zf ok]. simpl in Hc.
  subst ok. destruct (MatchString tz name), zf; reflexivity.
Qed.

Lemma descend_enters d zr path name zf err hs tail :
  newDecompressor name = (Some zf, true) ->
  zopen_of zr zf = ZRes (TarReader (entries hs tail)) err ->
  outcome (visit_all tz d hs path) = Some tt ->
  forall n body, In (n, body) hs ->
    In (Enter (S d) (path ++ [n])) (trace (descend tz d zr name path)).
Proof.
  intros Hc Hz Hret n body Hin. rewrite descend_trace, Hc, Hz.
  apply in_or_app. right. rewrite iterate_entries, trace_bind.
  apply in_or_app. left. now apply visit_all_enters with body.
Qed.

(** C7. On a node whose terminal name is [name]: [find] enters, sends
    the match when the pattern matches [name], and then runs the
    container part, which looks at [name] alone.  So a name that
    matches and is a container gets the match Result and the descent,
    both: once the transform gives a tar stream, every entry of the
    stream is entered with the chain extended by its name (as long as
    the descents return).  A name that is no container is a leaf: the
    frame's own events are all there is, matched or not. *)
Theorem match_and_recursion_independent d zr path name :
  terminal path = Some name ->
  find tz d zr path
  = (emit (Enter d path) ;;;
     (if MatchString tz name then emit (Send d (mkResult path None))
      else ret tt) ;;;
     descend tz d zr name path) /\
  (forall zf err hs tail,
     MatchString tz name = true ->
     newDecompressor name = (Some zf, true) ->
     zopen_of zr zf = ZRes (TarReader (entries hs tail)) err ->
     outcome (visit_all tz d hs path) = Some tt ->
     In (Send d (mkResult path None)) (trace (find tz d zr path)) /\
     forall n body, In (n, body) hs ->
       In (Enter (S d) (path ++ [n])) (trace (find tz d zr path))) /\
  (snd (newDecompressor name) = false ->
     find tz d zr path
     = (Enter d path ::
        (if MatchString tz name then [Send d (mkResult path None)] else []),
        Some tt)).
Proof.
  intros Ht. split; [now apply find_split | split].
  - intros zf err hs tail Hm Hc Hz Hret. rewrite find_trace, Ht.
    unfold visit. rewrite Ht, Hm. split.
    + right. left. reflexivity.
    + intros n body Hin. apply in_or_app. right.
      now apply (descend_enters d zr path name zf err hs tail Hc Hz Hret n body).
  - intros Hc. rewrite (find_leaf d zr path name Ht Hc). unfold visit.
    now rewrite Ht.
Qed.

End NodeFacts.

Lemma match_and_recursion_independent_witness :
  let inner := Samples.gzipped [("y.txt", Samples.plain)] in
  let outer := Samples.tarball [("yes.tar.gz", inner)] in
  In (Send 1 (mkResult ["a.tar"; "yes.tar.gz"] None))
     (trace (find Samples.pattern_y 1 inner ["a.tar"; "yes.tar.gz"])) /\
  In (Enter 2 ["a.tar"; "yes.tar.gz"; "y.txt"])
     (trace (find Samples.pattern_y 1 inner ["a.tar"; "yes.tar.gz"])) /\
  find Samples.pattern_y 2 Samples.plain ["a.tar"; "yes.tar.gz"; "y.txt"]
  = ([Enter 2 ["a.tar"; "yes.tar.gz"; "y.txt"];
      Send 2 (mkResult ["a.tar"; "yes.tar.gz"; "y.txt"] None)], Some tt).
Proof.
  intros inner outer.
  pose proof (match_and_recursion_independent Samples.pattern_y 1 inner
    ["a.tar"; "yes.tar.gz"] "yes.tar.gz" eq_refl) as [_ [H _]].
  specialize (H Gzip None [("y.txt", Samples.plain)] TEOF
    eq_refl eq_refl eq_refl eq_refl).
  destruct H as [H1 H2]. split; [exact H1 | split].
  - apply (H2 "y.txt" Samples.plain). left. reflexivity.
  - exact (proj2 (proj2 (match_and_recursion_independent Samples.pattern_y 2
      Samples.plain ["a.tar"; "yes.tar.gz"; "y.txt"] "y.txt"
      eq_refl)) eq_refl).
Defined.

(* ================================================================== *)
(** ** Failures that do not end the branch *)

Section FailureFacts.

Variable tz : TZgrep.

(** After a transform that fails, [find] reports the failure and goes
    on with the reader the transform returned. *)
Lemma find_after_failed_transform d zr path name zf r e :
  terminal path = Some name ->
  newDecompressor name = (Some zf, true) ->
  zopen_of zr zf = ZRes r (Some e) ->
  find tz d zr path
  = ((visit tz d path ++ [Send d (mkResult path (Some e))], Some tt) ;;;
     match r with
     | NilReader => panic
     | TarReader nexts => iterate tz d nexts path
     end).
Proof.
  intros Ht Hc Hz. rewrite (find_split tz d zr path name Ht).
  unfold descend, visit. rewrite Hc, Hz, Ht.
  destruct (MatchString tz name);
    destruct r as [|nexts]; [| destruct (iterate tz d nexts path) as [t o]
                             | | destruct (iterate tz d nexts path) as [t o]];
    try destruct o; reflexivity.
Qed.

(** After an open that fails, [findPath] reports the failure and goes
    on to [find] with the file [os.Open] returned. *)
Lemma findPath_after_failed_open (fs : FileSystem) path f e :
  fs path = (f, Some e) ->
  findPath tz fs path
  = (emit (Send 0 (mkResult [path] (Some e))) ;;; find tz 0 f [path]).
Proof. intros H. unfold findPath. now rewrite H. Qed.

End FailureFacts.

Module Defects.
Import Samples.

(** C2, at the root [bad.tar.gz] whose bytes are no gzip stream: the
    failure is sent, and then [find] reads the tar stream of the nil
    reader that the failed transform returned, which panics; the branch
    is not left by a return. *)
Theorem bad_gzip_root_panics :
  findPath pattern_none disk "bad.tar.gz"
  = ([Enter 0 ["bad.tar.gz"];
      Send 0 (mkResult ["bad.tar.gz"] (Some "gzip: invalid header"))],
     None).
Proof. reflexivity. Qed.

(** C3, at the root [missing.tar] that does not exist: after the open
    failure, [find] still runs on the nil file and sends a second
    failure for the same chain; at the root [missing.txt] with a
    pattern that matches it, a match Result follows the failure. *)
Theorem missing_root_not_single_result :
  results (trace (findPath pattern_none disk "missing.tar"))
  = [mkResult ["missing.tar"]
       (Some "open missing.tar: no such file or directory");
     mkResult ["missing.tar"] (Some "invalid argument")] /\
  results (trace (findPath pattern_m disk "missing.txt"))
  = [mkResult ["missing.txt"]
       (Some "open missing.txt: no such file or directory");
     mkResult ["missing.txt"] None].
Proof. split; reflexivity. Qed.

End Defects.

(* ================================================================== *)
(** ** The dispatcher's invariant *)

Section DispatchFacts.

Variable tz : TZgrep.
Variable fs : FileSystem.

Lemma active_app (l1 l2 : list descent) :
  active (l1 ++ l2) = active l1 + active l2.
Proof. unfold active. now rewrite filter_app, length_app. Qed.

Lemma active_cons (g : descent) (l : list descent) :
  active (g :: l) = (if d_done g then 0 else 1) + active l.
Proof. unfold active. simpl. now destruct (d_done g). Qed.

Lemma active_zero (l : list descent) :
  active l = 0 -> Forall (fun g => d_done g = true) l.
Proof.
  induction l as [|g l IH]; intros H; [constructor|].
  rewrite active_cons in H. destruct (d_done g) eqn:Hd; [|discriminate].
  constructor; [assumption | apply IH; exact H].
Qed.

Lemma advance_done (g : descent) : d_done (advance g) = d_done g.
Proof. unfold advance. now destruct (d_todo g). Qed.

Lemma advance_ok (g : descent) (e : event) (rest : list event) :
  d_todo g = e :: rest -> descent_ok tz fs g ->
  descent_ok tz fs (advance g).
Proof.
  intros Ht [H1 [H2 H3]]. unfold advance. rewrite Ht.
  split; [|split]; simpl.
  - rewrite <- H1, Ht, <- app_assoc. reflexivity.
  - exact H2.
  - intros Hd. destruct (H3 Hd) as [H _]. congruence.
Qed.

Lemma advance_past (g : descent) (e : event) (rest : list event) :
  d_todo g = e :: rest -> d_past (advance g) = d_past g ++ [e].
Proof. intros Ht. unfold advance. now rewrite Ht. Qed.

Lemma advance_todo (g : descent) (e : event) (rest : list event) :
  d_todo g = e :: rest -> d_todo (advance g) = rest.
Proof. intros Ht. unfold advance. now rewrite Ht. Qed.

Lemma advance_root (g : descent) : d_root (advance g) = d_root g.
Proof. unfold advance. now destruct (d_todo g). Qed.

Lemma advance_end (g : descent) : d_end (advance g) = d_end g.
Proof. unfold advance. now destruct (d_todo g). Qed.

Lemma launch_ok (p : string) : descent_ok tz fs (launch tz fs p).
Proof. repeat split; simpl; discriminate. Qed.

Lemma Forall_middle {A} (P : A -> Prop) (l1 l2 : list A) (a : A) :
  Forall P (l1 ++ a :: l2) <-> Forall P l1 /\ P a /\ Forall P l2.
Proof.
  rewrite Forall_app. split.
  - intros [H1 H2]. inversion H2; subst. tauto.
  - intros [H1 [H2 H3]]. split; [assumption | now constructor].
Qed.

Lemma map_root_middle (l1 l2 : list descent) (g g' : descent) :
  d_root g' = d_root g ->
  map d_root (l1 ++ g' :: l2) = map d_root (l1 ++ g :: l2).
Proof. intros H. rewrite !map_app. simpl. now rewrite H. Qed.

Lemma active_middle (l1 l2 : list descent) (g g' : descent) :
  d_done g' = d_done g -> active (l1 ++ g' :: l2) = active (l1 ++ g :: l2).
Proof. intros H. rewrite !active_app, !active_cons. now rewrite H. Qed.

(** A send is never pending once the channel is closed, and the
    counter is never zero while a goroutine has yet to call Done. *)
Lemma closed_all_finished (paths : list string) (s : state) :
  Inv tz fs paths s -> wg s = 0 -> all_finished s.
Proof.
  intros I Hw. pose proof (inv_wg I) as H. rewrite Hw in H.
  assert (Hp : pending s = []) by (destruct (pending s); [reflexivity | simpl in H; lia]).
  split; [exact Hp|].
  assert (Ha : active (descents s) = 0) by lia.
  pose proof (active_zero _ Ha) as Hd. pose proof (inv_descents I) as Hok.
  rewrite Forall_forall in *. intros g Hg. specialize (Hd g Hg).
  destruct (Hok g Hg) as [_ [_ H3]]. split; [apply (H3 Hd) | exact Hd].
Qed.

Lemma Inv_start (paths : list string) : Inv tz fs paths (Start paths).
Proof.
  constructor; simpl.
  - unfold active. simpl. lia.
  - constructor.
  - left. split; reflexivity.
  - intros r. split; [intros [] | intros [g [d [[] _]]]].
  - reflexivity.
  - discriminate.
Qed.

Lemma sends_middle (l1 l2 : list descent) (g g' : descent) (e : event) :
  d_past g' = d_past g ++ [e] ->
  forall r,
    (exists h d, In h (l1 ++ g' :: l2) /\ In (Send d r) (d_past h)) <->
    (exists h d, In h (l1 ++ g :: l2) /\ In (Send d r) (d_past h)) \/
    (exists d, e = Send d r).
Proof.
  intros Hp r. split.
  - intros [h [d [Hh Hs]]]. apply in_app_or in Hh. destruct Hh as [Hh | [<- | Hh]].
    + left. exists h, d. split; [apply in_or_app; now left | exact Hs].
    + rewrite Hp in Hs. apply in_app_or in Hs. destruct Hs as [Hs | [He | []]].
      * left. exists g, d. split; [apply in_or_app; right; now left | exact Hs].
      * right. now exists d.
    + left. exists h, d. split; [apply in_or_app; right; now right | exact Hs].
  - intros [[h [d [Hh Hs]]] | [d ->]].
    + apply in_app_or in Hh. destruct Hh as [Hh | [<- | Hh]].
      * exists h, d. split; [apply in_or_app; now left | exact Hs].
      * exists g', d. split; [apply in_or_app; right; now left |].
        rewrite Hp. apply in_or_app. now left.
      * exists h, d. split; [apply in_or_app; right; now right | exact Hs].
    + exists g', d. split; [apply in_or_app; right; now left |].
      rewrite Hp. apply in_or_app. right. now left.
Qed.

Lemma sends_same (l1 l2 : list descent) (g g' : descent) :
  d_past g' = d_past g ->
  forall r,
    (exists h d, In h (l1 ++ g' :: l2) /\ In (Send d r) (d_past h)) <->
    (exists h d, In h (l1 ++ g :: l2) /\ In (Send d r) (d_past h)).
Proof.
  intros Hp r. split; intros [h [d [Hh Hs]]];
    (apply in_app_or in Hh; destruct Hh as [Hh | [<- | Hh]];
     [ exists h, d; split; [apply in_or_app; now left | exact Hs]
     | eexists; exists d; split; [apply in_or_app; right; now left |];
       congruence
     | exists h, d; split; [apply in_or_app; right; now right | exact Hs] ]).
Qed.

Lemma Inv_crash_free (paths : list string) (s : state) :
  Inv tz fs paths s ->
  (exists g, In g (descents s) /\ d_todo g = [] /\ d_end g = None) ->
  Inv tz fs paths (crash s).
Proof.
  intros I Hg. destruct I. constructor; simpl; auto.
Qed.

(** Every step keeps the invariant. *)
Lemma Inv_step (paths : list string) (s s' : state) :
  Inv tz fs paths s -> step tz fs s s' -> Inv tz fs paths s'.
Proof.
  intros I Hstep.
  destruct Hstep as
    [ s p ps Hc Hp
    | s l1 g l2 d c rest Hc Hd Ht
    | s l1 g l2 d r rest Hc Hd Ht Hcl
    | s l1 g l2 d r rest Hc Hd Ht Hcl
    | s l1 g l2 Hc Hd Ht He
    | s l1 g l2 n Hc Hd Ht He Hdone Hw
    | s l1 g l2 Hc Hd Ht He Hdone Hw
    | s Hc Hwait Hw ].
  - (* launch *)
    constructor; simpl.
    + rewrite (inv_wg I), Hp, active_app, active_cons.
      change (active []) with 0. simpl. lia.
    + apply Forall_app. split; [apply (inv_descents I)|].
      constructor; [apply launch_ok | constructor].
    + apply (inv_close I).
    + intros r. rewrite (inv_out I r). split; intros [h [d [Hh Hs]]].
      * exists h, d. split; [apply in_or_app; now left | exact Hs].
      * apply in_app_or in Hh. destruct Hh as [Hh | [<- | []]].
        -- now exists h, d.
        -- destruct Hs.
    + rewrite map_app, <- app_assoc. simpl. rewrite <- Hp. apply (inv_roots I).
    + discriminate.
  - (* enter *)
    pose proof (inv_descents I) as Hok. rewrite Hd, Forall_middle in Hok.
    destruct Hok as [Hok1 [Hokg Hok2]].
    constructor; simpl.
    + rewrite (active_middle l1 l2 g (advance g) (advance_done g)), <- Hd.
      apply (inv_wg I).
    + apply Forall_middle. split; [assumption | split; [|assumption]].
      now apply advance_ok with (Enter d c) rest.
    + apply (inv_close I).
    + intros r. rewrite (inv_out I r), Hd.
      rewrite (sends_middle l1 l2 g (advance g) (Enter d c)
                 (advance_past g _ _ Ht) r).
      split; [now left | intros [H | [d' H]]; [exact H | discriminate]].
    + rewrite (map_root_middle l1 l2 g (advance g) (advance_root g)), <- Hd.
      apply (inv_roots I).
    + rewrite Hc. discriminate.
  - (* send *)
    pose proof (inv_descents I) as Hok. rewrite Hd, Forall_middle in Hok.
    destruct Hok as [Hok1 [Hokg Hok2]].
    constructor; simpl.
    + rewrite (active_middle l1 l2 g (advance g) (advance_done g)), <- Hd.
      apply (inv_wg I).
    + apply Forall_middle. split; [assumption | split; [|assumption]].
      now apply advance_ok with (Send d r) rest.
    + apply (inv_close I).
    + intros r0. rewrite in_app_iff, (inv_out I r0), Hd.
      rewrite (sends_middle l1 l2 g (advance g) (Send d r)
                 (advance_past g _ _ Ht) r0).
      split; (intros [H | H]; [now left | right]).
      * destruct H as [<- | []]. now exists d.
      * destruct H as [d' H]. injection H as _ ->. now left.
    + rewrite (map_root_middle l1 l2 g (advance g) (advance_root g)), <- Hd.
      apply (inv_roots I).
    + discriminate.
  - (* send on a closed channel: excluded *)
    exfalso. destruct (inv_close I) as [[_ H] | [_ [_ H]]]; [contradiction|].
    destruct (closed_all_finished paths s I H) as [_ Hall].
    rewrite Hd, Forall_middle in Hall. destruct Hall as [_ [[Hg _] _]].
    congruence.
  - (* panic *)
    apply Inv_crash_free; [exact I|]. exists g. rewrite Hd.
    split; [apply in_or_app; right; now left | now split].
  - (* done *)
    pose proof (inv_descents I) as Hok. rewrite Hd, Forall_middle in Hok.
    destruct Hok as [Hok1 [[Hg1 [Hg2 Hg3]] Hok2]].
    constructor; simpl.
    + pose proof (inv_wg I) as H. rewrite Hw, Hd, active_app, active_cons in H.
      rewrite active_app, active_cons. simpl. rewrite Hdone in H. lia.
    + apply Forall_middle. split; [assumption | split; [|assumption]].
      split; [exact Hg1 | split; [exact Hg2 | intros _; now split]].
    + destruct (inv_close I) as [H | [_ [_ H]]]; [now left | congruence].
    + intros r. rewrite (inv_out I r), Hd. symmetry.
      now apply sends_same.
    + rewrite (map_root_middle l1 l2 g (finish g) eq_refl), <- Hd.
      apply (inv_roots I).
    + discriminate.
  - (* done below zero: excluded *)
    exfalso. destruct (closed_all_finished paths s I Hw) as [_ Hall].
    rewrite Hd, Forall_middle in Hall. destruct Hall as [_ [[_ Hg] _]].
    congruence.
  - (* close *)
    destruct (inv_close I) as [[_ H0] | [H _]]; [|congruence].
    destruct I as [I1 I2 I3 I4 I5 I6].
    constructor; simpl; [exact I1 | exact I2 | | exact I4 | exact I5 | exact I6].
    right. rewrite H0. repeat split. exact Hw.
Qed.

Lemma reachable_Inv (paths : list string) (s : state) :
  reachable tz fs paths s -> Inv tz fs paths s.
Proof.
  induction 1 as [|s s' _ IH Hstep]; [apply Inv_start | now apply Inv_step with s].
Qed.

End DispatchFacts.

(* ================================================================== *)
(** ** Matching: what the traces of a descent contain *)

Section MatchFacts.

Variable tz : TZgrep.
Variable fs : FileSystem.

Lemma findPath_trace (p : string) :
  exists pre,
    trace (findPath tz fs p) = pre ++ trace (find tz 0 (fst (fs p)) [p]) /\
    (pre = [] \/ exists e, pre = [Send 0 (mkResult [p] (Some e))]).
Proof.
  unfold findPath. destruct (fs p) as [f [e|]]; simpl fst.
  - exists [Send 0 (mkResult [p] (Some e))]. rewrite trace_bind. simpl.
    split; [reflexivity | right; now exists e].
  - exists []. rewrite trace_bind. simpl. split; [reflexivity | now left].
Qed.







End MatchFacts.

(* ================================================================== *)
(** ** The dispatcher: closing and termination *)

Section CloseFacts.

Variable tz : TZgrep.
Variable fs : FileSystem.

Lemma finished_or_not (l : list descent) :
  Forall (fun g => d_todo g = [] /\ d_done g = true) l \/
  exists l1 g l2, l = l1 ++ g :: l2 /\ (d_todo g <> [] \/ d_done g = false).
Proof.
  induction l as [|g l IH]; [left; constructor|].
  destruct (d_todo g) as [|e rest] eqn:Ht.
  - destruct (d_done g) eqn:Hd.
    + destruct IH as [IH | [l1 [g' [l2 [-> H]]]]].
      * left. now constructor.
      * right. now exists (g :: l1), g', l2.
    + right. exists [], g, l. split; [reflexivity | now right].
  - right. exists [], g, l. split; [reflexivity | left; congruence].
Qed.

Lemma work_middle (l1 l2 : list descent) (g : descent) :
  list_sum (map work_of (l1 ++ g :: l2))
  = list_sum (map work_of l1) + work_of g + list_sum (map work_of l2).
Proof. rewrite map_app, list_sum_app. simpl. lia. Qed.

Lemma work_advance (g : descent) (e : event) (rest : list event) :
  d_todo g = e :: rest -> S (work_of (advance g)) = work_of g.
Proof. intros Ht. unfold work_of, advance. rewrite Ht. simpl. lia. Qed.

(** Every step uses up some of the work left: runs are finite. *)
Lemma step_decreases (s s' : state) :
  step tz fs s s' -> work tz fs s' < work tz fs s.
Proof.
  intros Hstep. unfold work.
  destruct Hstep as
    [ s p ps Hc Hp
    | s l1 g l2 d c rest Hc Hd Ht
    | s l1 g l2 d r rest Hc Hd Ht Hcl
    | s l1 g l2 d r rest Hc Hd Ht Hcl
    | s l1 g l2 Hc Hd Ht He
    | s l1 g l2 n Hc Hd Ht He Hdone Hw
    | s l1 g l2 Hc Hd Ht He Hdone Hw
    | s Hc Hwait Hw ]; simpl; rewrite Hc; try lia.
  - rewrite Hp, map_app, list_sum_app. simpl. lia.
  - rewrite Hd, !work_middle, <- (work_advance g _ _ Ht). lia.
  - rewrite Hd, !work_middle, <- (work_advance g _ _ Ht). lia.
  - rewrite Hd, !work_middle.
    assert (S (work_of (finish g)) = work_of g)
      by (unfold work_of, finish; simpl; rewrite Hdone; lia).
    lia.
  - rewrite Hwait. lia.
Qed.

(** Once the channel is closed, nothing more happens. *)
Lemma closed_is_final (paths : list string) (s s' : state) :
  Inv tz fs paths s -> closes s = 1 -> ~ step tz fs s s'.
Proof.
  intros I Hcl Hstep.
  destruct (inv_close I) as [[_ H] | [Hwait [_ Hw]]]; [congruence|].
  destruct (closed_all_finished tz fs paths s I Hw) as [Hp Hall].
  destruct Hstep as
    [ s p ps Hc Hp'
    | s l1 g l2 d c rest Hc Hd Ht
    | s l1 g l2 d r rest Hc Hd Ht Hcl'
    | s l1 g l2 d r rest Hc Hd Ht Hcl'
    | s l1 g l2 Hc Hd Ht He
    | s l1 g l2 n Hc Hd Ht He Hdone Hw'
    | s l1 g l2 Hc Hd Ht He Hdone Hw'
    | s Hc Hwait' Hw' ]; try congruence;
    rewrite Hd, Forall_middle in Hall; destruct Hall as [_ [[Hg1 Hg2] _]];
    try congruence.
  pose proof (inv_descents I) as Hok. rewrite Hd, Forall_middle in Hok.
  destruct Hok as [_ [[_ [_ H3]] _]]. destruct (H3 Hg2). congruence.
Qed.

Lemma all_finished_not_crashed (paths : list string) (s : state) :
  Inv tz fs paths s -> all_finished s -> crashed s = false.
Proof.
  intros I [_ Hall]. destruct (crashed s) eqn:Hc; [|reflexivity].
  destruct (inv_crash I Hc) as [g [Hg [_ He]]].
  pose proof (inv_descents I) as Hok. rewrite Forall_forall in Hok, Hall.
  destruct (Hok g Hg) as [_ [_ H3]]. destruct (Hall g Hg) as [_ Hd].
  destruct (H3 Hd). congruence.
Qed.

(** When every descent has finished and the channel is still open,
    the one step left is the close. *)
Lemma all_finished_closes (paths : list string) (s : state) :
  Inv tz fs paths s -> all_finished s -> closes s = 0 ->
  step tz fs s (closed s) /\ forall s', step tz fs s s' -> s' = closed s.
Proof.
  intros I Hfin Hcl. pose proof (all_finished_not_crashed paths s I Hfin) as Hc.
  destruct Hfin as [Hp Hall].
  assert (Hwait : waiting s = true)
    by (destruct (inv_close I) as [[H _] | [_ [H _]]]; [exact H | congruence]).
  assert (Hw : wg s = 0).
  { rewrite (inv_wg I), Hp. simpl. unfold active.
    replace (filter (fun g => negb (d_done g)) (descents s)) with (@nil descent);
      [reflexivity|].
    symmetry. clear -Hall. induction Hall as [|g l [_ Hg] _ IH]; [reflexivity|].
    simpl. now rewrite Hg. }
  split; [now apply step_close|].
  intros s' Hstep.
  destruct Hstep as
    [ s p ps Hc' Hp'
    | s l1 g l2 d c rest Hc' Hd Ht
    | s l1 g l2 d r rest Hc' Hd Ht Hcl'
    | s l1 g l2 d r rest Hc' Hd Ht Hcl'
    | s l1 g l2 Hc' Hd Ht He
    | s l1 g l2 n Hc' Hd Ht He Hdone Hw'
    | s l1 g l2 Hc' Hd Ht He Hdone Hw'
    | s Hc' Hwait' Hw' ]; try congruence; try reflexivity;
    rewrite Hd, Forall_middle in Hall; destruct Hall as [_ [[Hg1 Hg2] _]];
    try congruence.
  pose proof (inv_descents I) as Hok. rewrite Hd, Forall_middle in Hok.
  destruct Hok as [_ [[_ [_ H3]] _]]. destruct (H3 Hg2). congruence.
Qed.

(** C4. In every state of every run of [Start paths]: the channel has
    been closed at most once; if it has been closed, every root was
    launched, every descent has performed all its events and has called
    [wg.Done()], the process has not crashed and no step is left (no
    send, no second close); if every descent has finished and the
    channel is still open, the close is the step that comes, and the
    only one.  Every step uses up work, so runs are finite, and a crash
    comes only from a panic inside a descent (never from a send on the
    closed channel or from a wait group counter below zero). *)
Theorem channel_closed_once_after_descents (paths : list string) (s : state) :
  reachable tz fs paths s ->
  closes s <= 1 /\
  (closes s = 1 ->
     all_finished s /\ crashed s = false /\ forall s', ~ step tz fs s s') /\
  (all_finished s -> closes s = 0 ->
     step tz fs s (closed s) /\ closes (closed s) = 1 /\
     forall s', step tz fs s s' -> s' = closed s) /\
  (forall s', step tz fs s s' -> work tz fs s' < work tz fs s) /\
  (crashed s = true ->
     exists g, In g (descents s) /\ d_todo g = [] /\ d_end g = None).
Proof.
  intros Hr. pose proof (reachable_Inv tz fs paths s Hr) as I.
  split; [|split; [|split; [|split]]].
  - destruct (inv_close I) as [[_ H] | [_ [H _]]]; lia.
  - intros Hcl.
    assert (Hfin : all_finished s).
    { destruct (inv_close I) as [[_ H] | [_ [_ H]]]; [congruence|].
      now apply (closed_all_finished tz fs paths s I). }
    split; [exact Hfin | split].
    + now apply (all_finished_not_crashed paths s I).
    + intros s'. now apply (closed_is_final paths s s' I).
  - intros Hfin Hcl.
    destruct (all_finished_closes paths s I Hfin Hcl) as [H1 H2].
    split; [exact H1 | split; [simpl; now rewrite Hcl | exact H2]].
  - intros s'. apply step_decreases.
  - apply (inv_crash I).
Qed.

End CloseFacts.

Module LeafRunFacts.
Import Samples LeafRun.

Lemma launched_reachable : reachable pattern_leaf disk ["leaf.txt"] launched.
Proof.
  apply reach_step with (Start ["leaf.txt"]); [apply reach_start|].
  exact (step_launch pattern_leaf disk (Start ["leaf.txt"]) "leaf.txt" []
           eq_refl eq_refl).
Qed.

Lemma entered_reachable : reachable pattern_leaf disk ["leaf.txt"] entered.
Proof.
  apply reach_step with launched; [apply launched_reachable|].
  exact (step_enter pattern_leaf disk launched [] _ [] 0 ["leaf.txt"]
           [Send 0 the_match] eq_refl eq_refl eq_refl).
Qed.

Lemma sent_reachable : reachable pattern_leaf disk ["leaf.txt"] sent.
Proof.
  apply reach_step with entered; [apply entered_reachable|].
  exact (step_send pattern_leaf disk entered [] _ [] 0 the_match []
           eq_refl eq_refl eq_refl eq_refl).
Qed.

Lemma returned_reachable : reachable pattern_leaf disk ["leaf.txt"] returned.
Proof.
  apply reach_step with sent; [apply sent_reachable|].
  exact (step_done pattern_leaf disk sent [] _ [] 0
           eq_refl eq_refl eq_refl eq_refl eq_refl eq_refl).
Qed.

Lemma final_reachable : reachable pattern_leaf disk ["leaf.txt"] final.
Proof.
  apply reach_step with returned; [apply returned_reachable|].
  exact (step_close pattern_leaf disk returned eq_refl eq_refl eq_refl).
Qed.

End LeafRunFacts.

Lemma channel_closed_once_after_descents_witness :
  closes LeafRun.final <= 1 /\
  all_finished LeafRun.final /\
  crashed LeafRun.final = false /\
  step Samples.pattern_leaf Samples.disk LeafRun.returned
    (closed LeafRun.returned).
Proof.
  destruct (channel_closed_once_after_descents Samples.pattern_leaf
    Samples.disk ["leaf.txt"] LeafRun.final LeafRunFacts.final_reachable)
    as [H1 [H2 _]].
  destruct (H2 eq_refl) as [H3 [H4 _]].
  destruct (channel_closed_once_after_descents Samples.pattern_leaf
    Samples.disk ["leaf.txt"] LeafRun.returned
    LeafRunFacts.returned_reachable) as [_ [_ [H5 _]]].
  split; [exact H1 | split; [exact H3 | split; [exact H4 |]]].
  apply H5; [|reflexivity].
  split; [reflexivity|]. constructor; [now split | constructor].
Defined.

(* ================================================================== *)
(** ** No roots *)

(** C10. [Start] with no roots launches no descent: the one step of
    the process is the close of the channel, so a run is in the start
    state or in the closed one, no descent exists, no Result was ever
    received and nothing crashed; after the close the channel has been
    closed once and no step is left. *)
Theorem no_roots_close_without_results (tz : TZgrep) (fs : FileSystem) :
  step tz fs (Start []) (closed (Start [])) /\
  closes (closed (Start [])) = 1 /\
  (forall s', ~ step tz fs (closed (Start [])) s') /\
  forall s, reachable tz fs [] s ->
    (s = Start [] \/ s = closed (Start [])) /\
    descents s = [] /\ out s = [] /\ crashed s = false.
Proof.
  assert (Hnone : forall s s', s = Start [] \/ s = closed (Start []) ->
            step tz fs s s' -> s = Start [] /\ s' = closed (Start [])).
  { intros s s' Hs Hstep.
    destruct Hstep as
      [ s p ps Hc Hp
      | s l1 g l2 d c rest Hc Hd Ht
      | s l1 g l2 d r rest Hc Hd Ht Hcl
      | s l1 g l2 d r rest Hc Hd Ht Hcl
      | s l1 g l2 Hc Hd Ht He
      | s l1 g l2 n Hc Hd Ht He Hdone Hw
      | s l1 g l2 Hc Hd Ht He Hdone Hw
      | s Hc Hwait Hw ];
      destruct Hs as [-> | ->]; simpl in *; try discriminate;
      try (now destruct l1).
    now split. }
  split; [now apply step_close | split; [reflexivity | split]].
  - intros s' Hstep. destruct (Hnone _ _ (or_intror eq_refl) Hstep) as [H _].
    discriminate.
  - intros s Hr.
    assert (Hs : s = Start [] \/ s = closed (Start [])).
    { remember (@nil string) as paths eqn:Hp.
      induction Hr as [|s s' _ IH Hstep]; subst paths; [now left|].
      right. now apply (Hnone s s' IH Hstep). }
    split; [exact Hs|]. destruct Hs as [-> | ->]; now repeat split.
Qed.

Lemma no_roots_close_without_results_witness :
  out (closed (Start [])) = [] /\ descents (closed (Start [])) = [].
Proof.
  destruct (no_roots_close_without_results Samples.pattern_y Samples.disk)
    as [Hstep [_ [_ H]]].
  destruct (H (closed (Start []))
              (reach_step _ _ _ _ _ (reach_start _ _ []) Hstep))
    as [_ [H1 [H2 _]]].
  split; [exact H2 | exact H1].
Defined.

(* ================================================================== *)
(** ** Matching is sound and complete *)

Section Matching.

Variable tz : TZgrep.
Variable fs : FileSystem.




End Matching.


(* ================================================================== *)
(** ** Chains as slices: what the heap keeps *)

Module SliceFacts.
Import Slices.

Lemma array_at_app (h new : heap) (p : nat) :
  p < List.length h -> array_at (h ++ new) p = array_at h p.
Proof. intros H. unfold array_at. now apply app_nth1. Qed.

Lemma array_at_new (h : heap) (arr : list string) :
  array_at (h ++ [arr]) (List.length h) = arr.
Proof. unfold array_at. rewrite app_nth2, Nat.sub_diag; [reflexivity | lia]. Qed.

Lemma elems_app (h new : heap) (s : slice) :
  ptr s < List.length h -> elems (h ++ new) s = elems h s.
Proof. intros H. unfold elems. now rewrite array_at_app. Qed.

Lemma wf_app (h new : heap) (s : slice) : wf h s -> wf (h ++ new) s.
Proof.
  intros [H1 [H2 H3]]. unfold wf. rewrite array_at_app by assumption.
  rewrite length_app. repeat split; [lia | assumption | assumption].
Qed.

Lemma kept_app (h new : heap) (e : hevent) : kept h e -> kept (h ++ new) e.
Proof.
  intros [H1 H2]. split; [now apply wf_app|].
  rewrite elems_app; [assumption | apply H1].
Qed.

Lemma elems_length (h : heap) (s : slice) :
  wf h s -> List.length (elems h s) = len s.
Proof.
  intros [_ [H2 H3]]. unfold elems. apply firstn_length_le. lia.
Qed.

Lemma firstn_snoc_nth {A : Type} (l : list A) (i : nat) (x : A) :
  nth_error l i = Some x -> firstn (S i) l = firstn i l ++ [x].
Proof.
  revert i. induction l as [|a l IH]; intros [|i] H; simpl in *;
    try discriminate.
  - now injection H as ->.
  - f_equal. now apply IH.
Qed.

Lemma firstn_snoc_app {A : Type} (l : list A) (x : A) (r : list A) (n : nat) :
  List.length l = n -> firstn (S n) (l ++ x :: r) = l ++ [x].
Proof.
  intros <-. induction l as [|a l IH]; [reflexivity|].
  simpl. f_equal. exact IH.
Qed.

(** [path[len(path)-1]] reads the terminal name of the chain. *)
Lemma index_lastH_spec (h : heap) (s : slice) :
  wf h s -> index_lastH s h = ([], h, terminal (elems h s)).
Proof.
  intros [H1 [H2 H3]]. unfold index_lastH, elems.
  destruct (len s) as [|i] eqn:Hl; [reflexivity|].
  unfold index. rewrite Hl.
  replace (i <? S i) with true by (symmetry; apply Nat.ltb_lt; lia).
  destruct (nth_error (array_at h (ptr s)) i) as [x|] eqn:Hn.
  - rewrite (firstn_snoc_nth _ _ _ Hn). now rewrite terminal_snoc.
  - apply nth_error_None in Hn. lia.
Qed.

Lemma literal_spec (h : heap) (x : string) :
  let s := mkSlice (List.length h) 1 1 in
  literal x h = ([], h ++ [[x]], Some s) /\
  wf (h ++ [[x]]) s /\ elems (h ++ [[x]]) s = [x].
Proof.
  simpl. split; [reflexivity|]. unfold wf, elems. simpl.
  rewrite array_at_new, length_app. simpl. repeat split; lia.
Qed.

Section RuntimeFacts.

Variable growcap : nat -> nat -> nat.
Variable tz : TZgrep.

(** [append(path[:len(path):len(path)], name)] always copies: the
    result lives in a new array, the heap before it is untouched, and
    the result reads as the chain followed by the name. *)
Lemma extend_spec (h : heap) (s : slice) (name : string) :
  wf h s ->
  exists arr c,
    let child := mkSlice (List.length h) (S (len s)) c in
    extend growcap s name h = ([], h ++ [arr], Some child) /\
    wf (h ++ [arr]) child /\
    elems (h ++ [arr]) child = elems h s ++ [name].
Proof.
  intros Hwf. pose proof (elems_length h s Hwf) as Hlen.
  destruct Hwf as [H1 [H2 H3]].
  set (c := Nat.max (S (len s)) (growcap (len s) (S (len s)))).
  exists (elems h s ++ name :: repeat EmptyString (c - S (len s))), c.
  simpl. split; [|split].
  - unfold extend, bindH, full_slice.
    replace ((len s <=? len s) && (len s <=? cap s)) with true
      by (symmetry; apply andb_true_iff; split; apply Nat.leb_le; lia).
    unfold append. simpl. rewrite Nat.ltb_irrefl. reflexivity.
  - unfold wf. simpl. rewrite array_at_new, !length_app. simpl.
    rewrite repeat_length, Hlen. repeat split; lia.
  - unfold elems at 1. cbn [ptr len]. rewrite array_at_new.
    now apply firstn_snoc_app.
Qed.

Lemma M_eta {A : Type} (m : M A) : m = (trace m, outcome m).
Proof. now destruct m. Qed.

(** One frame of [find] on slices, spelled out. *)
Lemma findH_run d zr s h :
  wf h s ->
  findH growcap tz d zr s h
  = let path := elems h s in
    match terminal path with
    | None => ([(s, Enter d path)], h, None)
    | Some name =>
        let pre :=
          if MatchString tz name then [(s, Send d (mkResult path None))]
          else [] in
        match newDecompressor name with
        | (_, false) => ((s, Enter d path) :: pre ++ [], h, Some tt)
        | (None, true) => ((s, Enter d path) :: pre ++ [], h, None)
        | (Some zf, true) =>
            match zopen_of zr zf with
            | ZRes r err =>
                let pre' :=
                  pre ++ match err with
                         | Some e => [(s, Send d (mkResult path (Some e)))]
                         | None => []
                         end in
                match r with
                | NilReader => ((s, Enter d path) :: pre' ++ [], h, None)
                | TarReader nexts =>
                    match iterateH growcap tz d nexts s h with
                    | (t, h', o) => ((s, Enter d path) :: pre' ++ t, h', o)
                    end
                end
            end
        end
    end.
Proof.
  intros Hwf. destruct zr as [zopen]. simpl findH. cbv zeta.
  unfold bindH at 1. unfold enterH at 1. unfold bindH at 1.
  rewrite (index_lastH_spec h s Hwf).
  destruct (terminal (elems h s)) as [name|]; [|reflexivity].
  unfold bindH, sendH, retH, panicH. simpl zopen_of.
  destruct (MatchString tz name);
    destruct (newDecompressor name) as [[zf|] [|]]; try reflexivity;
    destruct (zopen zf) as [[|nexts] [e|]]; try reflexivity;
    destruct (iterateH growcap tz d nexts s h) as [[t h'] o];
    rewrite <- ?app_assoc; reflexivity.
Qed.

Lemma iterateH_hdr d name body rest s h :
  iterateH growcap tz d (THdr name body rest) s h
  = match extend growcap s name h with
    | (t0, h1, Some child) =>
        match findH growcap tz (S d) body child h1 with
        | (t1, h2, Some _) =>
            match iterateH growcap tz d rest s h2 with
            | (t2, h3, o) => (t0 ++ t1 ++ t2, h3, o)
            end
        | (t1, h2, None) => (t0 ++ t1, h2, None)
        end
    | (t0, h1, None) => (t0, h1, None)
    end.
Proof.
  simpl iterateH. unfold bindH.
  destruct (extend growcap s name h) as [[t0 h1] [child|]]; [|reflexivity].
  destruct (findH growcap tz (S d) body child h1) as [[t1 h2] [[]|]];
    [|reflexivity].
  now destruct (iterateH growcap tz d rest s h2) as [[t2 h3] o].
Qed.

Lemma own_sends_enters h s pre t :
  own_sends h s pre -> enters (pre ++ t) = enters t.
Proof.
  induction 1 as [|e pre [d [err ->]] _ IH]; [reflexivity | exact IH].
Qed.

Lemma own_sends_kept h s pre new :
  wf h s -> own_sends h s pre -> Forall (kept (h ++ new)) pre.
Proof.
  intros Hwf. induction 1 as [|e pre [d [err ->]] _ IH]; constructor;
    [|exact IH].
  apply kept_app. split; [exact Hwf | reflexivity].
Qed.

Lemma frame_intro h s d pre t h' o tr oc :
  wf h s -> own_sends h s pre ->
  refines h (t, h', o) (tr, oc) -> fresh h (t, h', o) (enters t) ->
  refines h ((s, Enter d (elems h s)) :: pre ++ t, h', o)
    (Enter d (elems h s) :: map snd pre ++ tr, oc) /\
  enters ((s, Enter d (elems h s)) :: pre ++ t) = ptr s :: enters t /\
  fresh h ((s, Enter d (elems h s)) :: pre ++ t, h', o) (enters t).
Proof.
  intros Hwf Hpre [Ht [Ho [[new ->] Hk]]] Hf.
  cbn [trace outcome fst snd] in Ht, Ho. subst tr oc. split; [|split].
  - split; [|split; [|split]].
    + unfold trace. cbn [fst]. rewrite map_cons, map_app. reflexivity.
    + reflexivity.
    + now exists new.
    + constructor.
      * apply kept_app. split; [exact Hwf | reflexivity].
      * apply Forall_app. split; [now apply own_sends_kept with s | exact Hk].
  - simpl. now rewrite (own_sends_enters h s pre t Hpre).
  - exact Hf.
Qed.

Lemma refines_here h : refines h ([], h, Some tt) ([], Some tt).
Proof.
  repeat split; [exists []; now rewrite app_nil_r | constructor].
Qed.

Lemma refines_stop h : refines h ([], h, None) ([], None).
Proof.
  repeat split; [exists []; now rewrite app_nil_r | constructor].
Qed.

Lemma fresh_none h o : fresh h ([], h, o) [].
Proof. split; constructor. Qed.

Lemma enters_app (t1 t2 : list hevent) :
  enters (t1 ++ t2) = enters t1 ++ enters t2.
Proof.
  induction t1 as [|[sl [d c|d r]] t1 IH]; simpl; [reflexivity | | exact IH].
  now rewrite IH.
Qed.

Lemma NoDup_ranges (a b : list nat) (lo mid hi : nat) :
  lo <= mid -> mid <= hi ->
  NoDup a -> NoDup b ->
  Forall (fun p => lo <= p < mid) a -> Forall (fun p => mid <= p < hi) b ->
  NoDup (a ++ b) /\ Forall (fun p => lo <= p < hi) (a ++ b).
Proof.
  intros Hlo Hhi Ha Hb Ra Rb. split.
  - induction Ha as [|x a Hx Ha IH]; [exact Hb|]. simpl.
    inversion Ra as [|? ? Rx Ra']; subst. constructor; [|now apply IH].
    intros Hin. apply in_app_or in Hin. destruct Hin as [Hin | Hin];
      [contradiction|].
    rewrite Forall_forall in Rb. specialize (Rb x Hin). lia.
  - apply Forall_app. split.
    + eapply Forall_impl; [|exact Ra]. intros p Hp. simpl in Hp. lia.
    + eapply Forall_impl; [|exact Rb]. intros p Hp. simpl in Hp. lia.
Qed.

Ltac own_sends_tac :=
  unfold own_sends;
  repeat (constructor; [eexists; eexists; reflexivity|]); constructor.

(** The traversal on slices performs the events of the traversal on
    lists, keeps every chain it passed or sent, and gives every call of
    [find] below the first a backing array of its own, allocated for
    it. *)
Lemma findH_refines :
  forall zr d s h, wf h s ->
    refines h (findH growcap tz d zr s h) (find tz d zr (elems h s)) /\
    exists E,
      enters (fst (fst (findH growcap tz d zr s h))) = ptr s :: E /\
      fresh h (findH growcap tz d zr s h) E.
Proof.
  apply (stream_mut
    (fun zr => forall d s h, wf h s ->
       refines h (findH growcap tz d zr s h) (find tz d zr (elems h s)) /\
       exists E,
         enters (fst (fst (findH growcap tz d zr s h))) = ptr s :: E /\
         fresh h (findH growcap tz d zr s h) E)
    (fun z => match z with
              | ZRes (TarReader nexts) _ =>
                  forall d s h, wf h s ->
                    refines h (iterateH growcap tz d nexts s h)
                      (iterate tz d nexts (elems h s)) /\
                    fresh h (iterateH growcap tz d nexts s h)
                      (enters (fst (fst (iterateH growcap tz d nexts s h))))
              | ZRes NilReader _ => True
              end)
    (fun r => match r with
              | TarReader nexts =>
                  forall d s h, wf h s ->
                    refines h (iterateH growcap tz d nexts s h)
                      (iterate tz d nexts (elems h s)) /\
                    fresh h (iterateH growcap tz d nexts s h)
                      (enters (fst (fst (iterateH growcap tz d nexts s h))))
              | NilReader => True
              end)
    (fun nexts => forall d s h, wf h s ->
       refines h (iterateH growcap tz d nexts s h)
         (iterate tz d nexts (elems h s)) /\
       fresh h (iterateH growcap tz d nexts s h)
         (enters (fst (fst (iterateH growcap tz d nexts s h)))))).
  - (* one frame *)
    intros zopen IH d s h Hwf.
    rewrite (findH_run d (Stream zopen) s h Hwf). cbv zeta.
    rewrite (M_eta (find tz d (Stream zopen) (elems h s))).
    rewrite find_trace, find_outcome. unfold visit.
    destruct (terminal (elems h s)) as [name|].
    2:{ destruct (frame_intro h s d [] [] h None [] None Hwf
                    ltac:(own_sends_tac) (refines_stop h) (fresh_none h None))
          as [H1 [H2 H3]].
        split; [exact H1 | exists []; split; [exact H2 | exact H3]]. }
    rewrite descend_trace, descend_outcome. simpl zopen_of.
    destruct (newDecompressor name) as [[zf|] [|]].
    + specialize (IH zf). destruct (zopen zf) as [[|nexts] err].
      * destruct (frame_intro h s d
          ((if MatchString tz name
            then [(s, Send d (mkResult (elems h s) None))] else []) ++
           match err with
           | Some e => [(s, Send d (mkResult (elems h s) (Some e)))]
           | None => []
           end) [] h None [] None Hwf
          ltac:(destruct (MatchString tz name), err; own_sends_tac)
          (refines_stop h) (fresh_none h None)) as [H1 [H2 H3]].
        destruct (MatchString tz name), err;
          (split; [exact H1 | exists []; split; [exact H2 | exact H3]]).
      * destruct (IH d s h Hwf) as [Hr Hf].
        rewrite (M_eta (iterate tz d nexts (elems h s))) in Hr.
        destruct (iterateH growcap tz d nexts s h) as [[t h'] o].
        destruct (frame_intro h s d
          ((if MatchString tz name
            then [(s, Send d (mkResult (elems h s) None))] else []) ++
           match err with
           | Some e => [(s, Send d (mkResult (elems h s) (Some e)))]
           | None => []
           end) t h' o _ _ Hwf
          ltac:(destruct (MatchString tz name), err; own_sends_tac)
          Hr Hf) as [H1 [H2 H3]].
        destruct (MatchString tz name), err;
          (split; [exact H1 | exists (enters t); split; [exact H2 | exact H3]]).
    + destruct (frame_intro h s d
        (if MatchString tz name
         then [(s, Send d (mkResult (elems h s) None))] else [])
        [] h (Some tt) [] (Some tt) Hwf
        ltac:(destruct (MatchString tz name); own_sends_tac)
        (refines_here h) (fresh_none h (Some tt))) as [H1 [H2 H3]].
      destruct (MatchString tz name);
        (split; [exact H1 | exists []; split; [exact H2 | exact H3]]).
    + destruct (frame_intro h s d
        (if MatchString tz name
         then [(s, Send d (mkResult (elems h s) None))] else [])
        [] h None [] None Hwf
        ltac:(destruct (MatchString tz name); own_sends_tac)
        (refines_stop h) (fresh_none h None)) as [H1 [H2 H3]].
      destruct (MatchString tz name);
        (split; [exact H1 | exists []; split; [exact H2 | exact H3]]).
    + destruct (frame_intro h s d
        (if MatchString tz name
         then [(s, Send d (mkResult (elems h s) None))] else [])
        [] h (Some tt) [] (Some tt) Hwf
        ltac:(destruct (MatchString tz name); own_sends_tac)
        (refines_here h) (fresh_none h (Some tt))) as [H1 [H2 H3]].
      destruct (MatchString tz name);
        (split; [exact H1 | exists []; split; [exact H2 | exact H3]]).
  - intros r IH err. destruct r; [exact I | exact IH].
  - exact I.
  - intros nexts IH. exact IH.
  - (* end of the tar stream *)
    intros d s h Hwf. split; [apply refines_here | apply fresh_none].
  - (* a read error *)
    intros e rest _ d s h Hwf. split; [|split; constructor].
    repeat split; [exists []; now rewrite app_nil_r|].
    constructor; [|constructor]. split; [exact Hwf | reflexivity].
  - (* an entry *)
    intros name body IHb rest IHr d s h Hwf. rewrite iterateH_hdr.
    destruct (extend_spec h s name Hwf) as [arr [c [He [Hwc Hec]]]].
    cbv zeta in He, Hwc, Hec. rewrite He.
    set (child := mkSlice (List.length h) (S (len s)) c) in *.
    destruct (IHb (S d) child (h ++ [arr]) Hwc) as [Hrb [E [HE HfE]]].
    rewrite Hec in Hrb.
    rewrite (M_eta (iterate tz d (THdr name body rest) (elems h s))).
    rewrite iterate_hdr_trace, iterate_hdr_outcome.
    destruct (findH growcap tz (S d) body child (h ++ [arr]))
      as [[t1 h2] o1].
    destruct Hrb as [Ht1 [Ho1 [[new1 Hh2] Hk1]]]. subst h2.
    cbn [fst snd] in HE. destruct HfE as [HndE HrE].
    rewrite <- Ho1. rewrite !length_app in HrE. cbn [List.length] in HrE.
    destruct o1 as [[]|].
    + assert (Hwf2 : wf ((h ++ [arr]) ++ new1) s)
        by now apply wf_app, wf_app.
      destruct (IHr d s ((h ++ [arr]) ++ new1) Hwf2) as [Hrr Hfr].
      rewrite !elems_app in Hrr;
        [| apply Hwf | rewrite length_app; destruct Hwf; lia].
      destruct (iterateH growcap tz d rest s ((h ++ [arr]) ++ new1))
        as [[t2 h3] o2].
      destruct Hrr as [Ht2 [Ho2 [[new2 Hh3] Hk2]]]. subst h3.
      cbn [fst snd] in Hfr. destruct Hfr as [Hnd2 Hr2].
      rewrite !length_app in Hr2. cbn [List.length] in Hr2.
      split.
      * split; [|split; [|split]].
        -- unfold trace in *. rewrite app_nil_l. cbn [fst].
           rewrite map_app. f_equal; [exact Ht1 | exact Ht2].
        -- exact Ho2.
        -- exists ([arr] ++ new1 ++ new2). now rewrite <- !app_assoc.
        -- rewrite app_nil_l. apply Forall_app. split; [|exact Hk2].
           eapply Forall_impl; [|exact Hk1]. intros e. apply kept_app.
      * rewrite app_nil_l. cbn [fst]. rewrite enters_app, HE.
        change (ptr child) with (List.length h).
        change (List.length h :: E ++ enters t2)
          with ((List.length h :: E) ++ enters t2).
        unfold fresh. rewrite !length_app. cbn [List.length].
        apply NoDup_ranges with
          (mid := List.length h + 1 + List.length new1); try lia.
        -- constructor; [|exact HndE]. intros Hin.
           rewrite Forall_forall in HrE. specialize (HrE _ Hin). lia.
        -- exact Hnd2.
        -- constructor; [lia|]. eapply Forall_impl; [|exact HrE].
           intros p Hp. simpl in Hp. lia.
        -- exact Hr2.
    + split.
      * split; [|split; [|split]].
        -- unfold trace in *. rewrite app_nil_l, app_nil_r. cbn [fst].
           exact Ht1.
        -- reflexivity.
        -- exists ([arr] ++ new1). now rewrite <- !app_assoc.
        -- exact Hk1.
      * rewrite app_nil_l. cbn [fst]. rewrite HE.
        change (ptr child) with (List.length h). unfold fresh.
        rewrite !length_app. cbn [List.length]. split.
        -- constructor; [|exact HndE]. intros Hin.
           rewrite Forall_forall in HrE. specialize (HrE _ Hin). lia.
        -- constructor; [lia|]. eapply Forall_impl; [|exact HrE].
           intros p Hp. simpl in Hp. lia.
Qed.

(** [findPath] on slices: the same events as on lists, every chain
    kept, and every call of [find] on an array of its own, allocated
    during the run. *)
Lemma findPathH_refines (fs : FileSystem) (p : string) (h : heap) :
  refines h (findPathH growcap tz fs p h) (findPath tz fs p) /\
  fresh h (findPathH growcap tz fs p h)
    (enters (fst (fst (findPathH growcap tz fs p h)))).
Proof.
  unfold findPathH, findPath. destruct (fs p) as [f err].
  destruct err as [e|].
  - set (h1 := h ++ [[p]]).
    set (s0 := mkSlice (List.length h) 1 1).
    set (root := mkSlice (List.length h1) 1 1).
    destruct (literal_spec h p) as [_ [Hw0 He0]].
    destruct (literal_spec h1 p) as [_ [Hw1 He1]].
    cbv zeta in Hw0, He0, Hw1, He1. fold h1 s0 in Hw0, He0. fold root in Hw1, He1.
    destruct (findH_refines f 0 root (h1 ++ [[p]]) Hw1) as [Hr [E [HE HfE]]].
    rewrite He1 in Hr.
    unfold bindH, literal, sendH. fold h1 s0 root. rewrite He0.
    destruct (findH growcap tz 0 f root (h1 ++ [[p]])) as [[t h'] o].
    destruct Hr as [Ht [Ho [[new Hh'] Hk]]]. subst h'.
    cbn [fst snd] in HE. destruct HfE as [Hnd HrE].
    rewrite (M_eta (bind _ _)), trace_bind, outcome_bind. simpl outcome at 1.
    cbn iota. split.
    + split; [|split; [|split]].
      * simpl. f_equal. exact Ht.
      * simpl. exact Ho.
      * exists ([[p]] ++ [[p]] ++ new). unfold h1. now rewrite <- !app_assoc.
      * simpl app. constructor; [|exact Hk].
        apply kept_app, kept_app. split; [exact Hw0 | exact He0].
    + cbn [fst]. simpl app. cbn [enters]. rewrite HE.
      unfold fresh. unfold h1 in *. rewrite !length_app in *.
      cbn [List.length] in *. cbn [ptr root]. split.
      * constructor; [|exact Hnd]. intros Hin.
        rewrite Forall_forall in HrE. specialize (HrE _ Hin).
        unfold root in HrE. cbn [ptr] in HrE. rewrite length_app in HrE.
        simpl in HrE. lia.
      * constructor; [unfold root; cbn [ptr]; rewrite length_app; simpl; lia|].
        eapply Forall_impl; [|exact HrE]. intros q Hq. simpl in Hq. lia.
  - set (root := mkSlice (List.length h) 1 1).
    destruct (literal_spec h p) as [_ [Hw1 He1]].
    cbv zeta in Hw1, He1. fold root in Hw1, He1.
    destruct (findH_refines f 0 root (h ++ [[p]]) Hw1) as [Hr [E [HE HfE]]].
    rewrite He1 in Hr.
    unfold bindH, literal, retH. fold root.
    destruct (findH growcap tz 0 f root (h ++ [[p]])) as [[t h'] o].
    destruct Hr as [Ht [Ho [[new Hh'] Hk]]]. subst h'.
    cbn [fst snd] in HE. destruct HfE as [Hnd HrE].
    rewrite bind_ret_l. split.
    + split; [|split; [|split]].
      * rewrite !app_nil_l. exact Ht.
      * exact Ho.
      * exists ([[p]] ++ new). now rewrite <- !app_assoc.
      * rewrite !app_nil_l. exact Hk.
    + cbn [fst]. rewrite !app_nil_l, HE. unfold fresh.
      rewrite !length_app in *. cbn [List.length] in *. cbn [ptr root]. split.
      * constructor; [|exact Hnd]. intros Hin.
        rewrite Forall_forall in HrE. specialize (HrE _ Hin). lia.
      * constructor; [unfold root; cbn [ptr]; lia|].
        eapply Forall_impl; [|exact HrE]. intros q Hq. simpl in Hq. lia.
Qed.

End RuntimeFacts.

End SliceFacts.

(* ================================================================== *)
(** ** The path chain invariant *)

Lemma below_chain (d : nat) (path : list string) (e : event) :
  below d path e <->
  exists ext, chain_of e = path ++ ext /\ depth_of e = d + List.length ext.
Proof. destruct e; reflexivity. Qed.

Lemma findPath_below (tz : TZgrep) (fs : FileSystem) (p : string) :
  Forall (below 0 [p]) (trace (findPath tz fs p)).
Proof.
  destruct (findPath_trace tz fs p) as [pre [-> Hpre]]. apply Forall_app.
  split; [|apply find_below].
  destruct Hpre as [-> | [e ->]]; constructor; [|constructor].
  apply below_here_send.
Qed.

(** Without the full slice expression, [append] on a slice with spare
    capacity writes into the array it shares: a chain sent earlier
    changes under its receiver. *)
Example append_in_place_aliases :
  let h := [["a.tar"; "x.txt"]] in
  let parent := Slices.mkSlice 0 1 2 in
  let sent := Slices.mkSlice 0 2 2 in
  Slices.elems h sent = ["a.tar"; "x.txt"] /\
  match Slices.append (fun old _ => 2 * old) parent "y.txt" h with
  | (_, h', _) => Slices.elems h' sent = ["a.tar"; "y.txt"]
  end.
Proof. split; reflexivity. Qed.

(** C8. Every event of the descent of a root [p] carries a chain of
    one more name than the depth of its frame, so of one name at least,
    and an entry at container depth D is entered and reported with D+1
    names.  Under a call of [find] with the chain [path], every event
    carries [path] followed by as many names as its frame lies deeper;
    a call made by that call gets [path] followed by one name.  On
    slices: the run performs the same events; the heap only grows, and
    every slice that was passed to [find] or sent reads at the end as
    the chain it carried then; the chains of the calls of [find] lie in
    arrays allocated during the run, no two calls in the same array. *)
Theorem path_chain_invariant (growcap : nat -> nat -> nat) (tz : TZgrep)
  (fs : FileSystem) (p : string) :
  (forall e, In e (trace (findPath tz fs p)) ->
     List.length (chain_of e) = S (depth_of e)) /\
  (forall d zr path e, In e (trace (find tz d zr path)) ->
     exists ext,
       chain_of e = path ++ ext /\ depth_of e = d + List.length ext) /\
  (forall d zr path c, In (Enter (S d) c) (trace (find tz d zr path)) ->
     exists name, c = path ++ [name]) /\
  (forall h t h' o, Slices.findPathH growcap tz fs p h = (t, h', o) ->
     map snd t = trace (findPath tz fs p) /\
     o = outcome (findPath tz fs p) /\
     (exists new, h' = h ++ new) /\
     Forall (Slices.kept h') t /\
     NoDup (Slices.enters t) /\
     Forall (fun q => List.length h <= q < List.length h') (Slices.enters t)).
Proof.
  split; [|split; [|split]].
  - intros e Hin. pose proof (findPath_below tz fs p) as H.
    rewrite Forall_forall in H. apply H, below_chain in Hin.
    destruct Hin as [ext [-> ->]]. reflexivity.
  - intros d zr path e Hin. pose proof (find_below tz zr d path) as H.
    rewrite Forall_forall in H. now apply below_chain, H.
  - intros d zr path c Hin. pose proof (find_below tz zr d path) as H.
    rewrite Forall_forall in H. destruct (H _ Hin) as [ext [-> Hd]].
    destruct ext as [|name [|? ?]]; simpl in Hd; try lia. now exists name.
  - intros h t h' o Hrun.
    destruct (SliceFacts.findPathH_refines growcap tz fs p h) as [Hr Hf].
    rewrite Hrun in Hr, Hf. destruct Hr as [H1 [H2 [H3 H4]]].
    destruct Hf as [H5 H6]. repeat split; assumption.
Qed.

Lemma path_chain_invariant_witness :
  List.length ["a.tar"; "inner.tar.gz"; "y.txt"] = 3 /\
  (exists name, ["a.tar"; "inner.tar.gz"] = ["a.tar"] ++ [name]) /\
  NoDup (Slices.enters
    (fst (fst (Slices.findPathH (fun old _ => 2 * old) Samples.pattern_y
                 Samples.disk "a.tar" [])))).
Proof.
  destruct (path_chain_invariant (fun old _ => 2 * old) Samples.pattern_y
              Samples.disk "a.tar") as [H1 [_ [H3 H4]]].
  split; [|split].
  - apply (H1 (Enter 2 ["a.tar"; "inner.tar.gz"; "y.txt"])).
    simpl. tauto.
  - apply (H3 0 (fst (Samples.disk "a.tar")) ["a.tar"]).
    simpl. tauto.
  - destruct (Slices.findPathH (fun old _ => 2 * old) Samples.pattern_y
                Samples.disk "a.tar" []) as [[t h'] o] eqn:Hrun.
    apply (H4 [] t h' o Hrun).
Defined.

(* ================================================================== *)
(** ** What a panic in a descent does to the run *)

(** X15. A root whose descent panics is never followed by the close of the
    channel: its goroutine never calls [wg.Done()]. *)
Lemma panicking_root_never_closed (tz : TZgrep) (fs : FileSystem)
  (paths : list string) (p : string) (s : state) :
  In p paths -> outcome (findPath tz fs p) = None ->
  reachable tz fs paths s -> closes s = 0.
Proof.
  intros Hp Hpanic Hr. pose proof (reachable_Inv tz fs paths s Hr) as I.
  destruct (inv_close I) as [[_ H] | [_ [_ Hw]]]; [exact H | exfalso].
  destruct (closed_all_finished tz fs paths s I Hw) as [Hpend Hall].
  pose proof (inv_roots I) as Hroots. rewrite Hpend, app_nil_r in Hroots.
  rewrite <- Hroots in Hp. apply in_map_iff in Hp.
  destruct Hp as [g [Hg Hin]]. pose proof (inv_descents I) as Hok.
  rewrite Forall_forall in Hok, Hall.
  destruct (Hok g Hin) as [_ [He Hd]]. destruct (Hall g Hin) as [_ Hdone].
  destruct (Hd Hdone) as [_ Hend]. rewrite Hg in He. congruence.
Qed.

(* ================================================================== *)
(** ** The whole suffix table *)

Lemma prefixb_comparable (a b l : list ascii) :
  prefixb a l = true -> prefixb b l = true ->
  prefixb a b = true \/ prefixb b a = true.
Proof.
  revert b l. induction a as [|x a IH]; intros b l Ha Hb; [now left|].
  destruct b as [|y b]; [now right|].
  destruct l as [|z l]; [discriminate|]. simpl in *.
  apply andb_true_iff in Ha. apply andb_true_iff in Hb.
  destruct Ha as [Hx Ha], Hb as [Hy Hb].
  apply Ascii.eqb_eq in Hx. apply Ascii.eqb_eq in Hy. subst x y.
  rewrite Ascii.eqb_refl. simpl. now apply IH with l.
Qed.

(** Two suffixes of one name: one ends the other. *)
Lemma HasSuffix_comparable (s k1 k2 : string) :
  HasSuffix s k1 = true -> HasSuffix s k2 = true ->
  HasSuffix k2 k1 = true \/ HasSuffix k1 k2 = true.
Proof.
  rewrite !HasSuffix_rev. apply prefixb_comparable.
Qed.

Lemma known_suffixes_apart (s k1 k2 : string) :
  In k1 known_suffixes -> In k2 known_suffixes ->
  HasSuffix s k1 = true -> HasSuffix s k2 = true -> k1 = k2.
Proof.
  intros H1 H2 S1 S2.
  destruct (HasSuffix_comparable s k1 k2 S1 S2) as [H | H];
    clear S1 S2; simpl in H1, H2;
    repeat (destruct H1 as [<- | H1]); try contradiction;
    repeat (destruct H2 as [<- | H2]); try contradiction;
    first [ reflexivity | exfalso; vm_compute in H; discriminate H ].
Qed.

(** X1. A name ends in at most one suffix of the table: no suffix of
    the table ends another, so the order of the cases of the switch in
    [newDecompressor] decides nothing. *)
Theorem one_known_suffix (s k1 k2 : string) :
  In k1 known_suffixes -> In k2 known_suffixes ->
  HasSuffix s k1 = true -> HasSuffix s k2 = true -> k1 = k2.
Proof. apply known_suffixes_apart. Qed.

Lemma one_known_suffix_witness :
  HasSuffix "backup.tar.gz" ".tar.gz" = true /\ ".tar.gz" = ".tar.gz".
Proof.
  split; [reflexivity|].
  apply (one_known_suffix "backup.tar.gz" ".tar.gz" ".tar.gz");
    [simpl; tauto | simpl; tauto | reflexivity | reflexivity].
Defined.

(** X2. Every suffix of the table selects its transform, whatever comes
    before it in the name and whatever the case of its letters. *)
Theorem classify_full_table (pre suf : string) (zf : decompressor) :
  In (ToLower suf) (suffixes_of zf) ->
  newDecompressor (pre ++ suf)%string = (Some zf, true).
Proof.
  intros Hin. destruct zf; simpl in Hin;
    repeat (destruct Hin as [H | Hin]; [symmetry in H; classify_suffix H|]);
    destruct Hin.
Qed.

Lemma classify_full_table_witness :
  newDecompressor "Logs.TBZ2" = (Some Bzip2, true) /\
  newDecompressor "rootfs.tar.XZ" = (Some Xz, true) /\
  newDecompressor ".tzst" = (Some Zstd, true).
Proof.
  split; [|split].
  - apply (classify_full_table "Logs" ".TBZ2" Bzip2). simpl. tauto.
  - apply (classify_full_table "rootfs" ".tar.XZ" Xz). simpl. tauto.
  - apply (classify_full_table "" ".tzst" Zstd). simpl. tauto.
Defined.

Lemma hasSuffixes_true (s : string) (l : list string) :
  hasSuffixes s l = true <-> exists k, In k l /\ HasSuffix s k = true.
Proof.
  induction l as [|k l IH]; simpl.
  - split; [discriminate | intros [k [[] _]]].
  - destruct (HasSuffix s k) eqn:Hk.
    + split; [intros _ | reflexivity]. exists k. split; [now left | exact Hk].
    + rewrite IH. split.
      * intros [k' [Hin Hs]]. exists k'. split; [now right | exact Hs].
      * intros [k' [[<- | Hin] Hs]]; [congruence | now exists k'].
Qed.

(** X3. [hasSuffixes] holds exactly when one of the suffixes ends the
    string; with no suffix to try it fails, and the empty suffix ends
    every string. *)
Theorem hasSuffixes_spec (s : string) (suffixes : list string) :
  (hasSuffixes s suffixes = true <->
   exists suffix pre, In suffix suffixes /\ s = (pre ++ suffix)%string) /\
  hasSuffixes s [] = false /\
  (In EmptyString suffixes -> hasSuffixes s suffixes = true).
Proof.
  assert (Hiff : hasSuffixes s suffixes = true <->
    exists suffix pre, In suffix suffixes /\ s = (pre ++ suffix)%string).
  { rewrite hasSuffixes_true. split.
    - intros [k [Hin Hs]]. apply HasSuffix_spec in Hs.
      destruct Hs as [pre Hs]. now exists k, pre.
    - intros [k [pre [Hin Hs]]]. exists k. split; [exact Hin|].
      apply HasSuffix_spec. now exists pre. }
  split; [exact Hiff | split; [reflexivity|]].
  intros Hin. apply Hiff. exists EmptyString, s. split; [exact Hin|].
  clear. induction s as [|c s IH]; simpl; [reflexivity | now rewrite <- IH].
Qed.

Lemma suffixes_of_known (zf : decompressor) (k : string) :
  In k (suffixes_of zf) -> In k known_suffixes.
Proof.
  unfold known_suffixes. rewrite !in_app_iff. destruct zf; simpl; tauto.
Qed.

Lemma classes_apart (zf zf' : decompressor) (s : string) :
  hasSuffixes s (suffixes_of zf) = true ->
  hasSuffixes s (suffixes_of zf') = true -> zf = zf'.
Proof.
  rewrite !hasSuffixes_true. intros [k [Hk Hs]] [k' [Hk' Hs']].
  pose proof (known_suffixes_apart s k k' (suffixes_of_known zf k Hk)
                (suffixes_of_known zf' k' Hk') Hs Hs') as Heq. subst k'.
  destruct zf, zf'; try reflexivity; exfalso; simpl in Hk, Hk';
    repeat (destruct Hk as [<- | Hk]); try contradiction;
    repeat (destruct Hk' as [Hk' | Hk']; try discriminate Hk');
    contradiction.
Qed.

(** X4. [newDecompressor] returns the transform [zf] exactly for the names
    whose lowered form ends in a suffix listed for [zf], in whatever
    order the cases are tried; and it returns a nil transform exactly
    when it answers that the name is no container, so [find] never
    calls a nil transform. *)
Theorem classify_iff (name : string) :
  (forall zf, newDecompressor name = (Some zf, true) <->
              hasSuffixes (ToLower name) (suffixes_of zf) = true) /\
  (newDecompressor name = (None, false) <->
   forall k, In k known_suffixes -> HasSuffix (ToLower name) k = false) /\
  (fst (newDecompressor name) = None <-> snd (newDecompressor name) = false).
Proof.
  assert (Hfwd : forall zf, newDecompressor name = (Some zf, true) ->
                   hasSuffixes (ToLower name) (suffixes_of zf) = true).
  { intros zf. unfold newDecompressor.
    destruct (hasSuffixes (ToLower name) tar_suffixes) eqn:H1;
      [intros H; injection H as <-; exact H1|].
    destruct (hasSuffixes (ToLower name) gzip_suffixes) eqn:H2;
      [intros H; injection H as <-; exact H2|].
    destruct (hasSuffixes (ToLower name) bzip2_suffixes) eqn:H3;
      [intros H; injection H as <-; exact H3|].
    destruct (hasSuffixes (ToLower name) xz_suffixes) eqn:H4;
      [intros H; injection H as <-; exact H4|].
    destruct (hasSuffixes (ToLower name) zstd_suffixes) eqn:H5;
      [intros H; injection H as <-; exact H5 | discriminate]. }
  assert (Hsome : forall zf,
            hasSuffixes (ToLower name) (suffixes_of zf) = true ->
            exists zf', newDecompressor name = (Some zf', true)).
  { intros zf H. unfold newDecompressor.
    destruct (hasSuffixes (ToLower name) tar_suffixes) eqn:H1; [eauto|].
    destruct (hasSuffixes (ToLower name) gzip_suffixes) eqn:H2; [eauto|].
    destruct (hasSuffixes (ToLower name) bzip2_suffixes) eqn:H3; [eauto|].
    destruct (hasSuffixes (ToLower name) xz_suffixes) eqn:H4; [eauto|].
    destruct (hasSuffixes (ToLower name) zstd_suffixes) eqn:H5; [eauto|].
    destruct zf; cbn [suffixes_of] in H; congruence. }
  split; [|split].
  - intros zf. split; [apply Hfwd|]. intros H.
    destruct (Hsome zf H) as [zf' Hzf']. rewrite Hzf'. f_equal. f_equal.
    apply (classes_apart zf' zf (ToLower name)); [now apply Hfwd | exact H].
  - split; [|apply classify_unknown].
    intros Hnone k Hk. destruct (HasSuffix (ToLower name) k) eqn:Hs;
      [|reflexivity].
    assert (exists zf, In k (suffixes_of zf)) as [zf Hzf].
    { unfold known_suffixes in Hk. rewrite !in_app_iff in Hk.
      destruct Hk as [H | [H | [H | [H | H]]]];
        [exists Identity | exists Gzip | exists Bzip2 | exists Xz
        | exists Zstd]; exact H. }
    destruct (Hsome zf) as [zf' Hzf'];
      [apply hasSuffixes_true; now exists k | congruence].
  - unfold newDecompressor.
    destruct (hasSuffixes (ToLower name) tar_suffixes);
    destruct (hasSuffixes (ToLower name) gzip_suffixes);
    destruct (hasSuffixes (ToLower name) bzip2_suffixes);
    destruct (hasSuffixes (ToLower name) xz_suffixes);
    destruct (hasSuffixes (ToLower name) zstd_suffixes); simpl;
      split; intros H; try reflexivity; discriminate H.
Qed.

Lemma ToLower_length (s : string) :
  String.length (ToLower s) = String.length s.
Proof. induction s; simpl; congruence. Qed.

(** X5. A name of fewer than four bytes, the empty name among them, is no
    container; the suffixes themselves are the shortest names that
    are. *)
Theorem short_names_are_leaves (name : string) :
  (String.length name < 4 -> newDecompressor name = (None, false)) /\
  (In name known_suffixes -> snd (newDecompressor name) = true).
Proof.
  split.
  - intros Hlen. apply classify_unknown. intros k Hk. unfold HasSuffix.
    rewrite ToLower_length.
    replace (String.length k <=? String.length name) with false;
      [reflexivity|].
    symmetry. apply Nat.leb_gt. simpl in Hk.
    repeat (destruct Hk as [<- | Hk]; [simpl; lia|]). destruct Hk.
  - intros Hk. simpl in Hk.
    repeat (destruct Hk as [<- | Hk]; [reflexivity|]). destruct Hk.
Qed.

Lemma short_names_are_leaves_witness :
  newDecompressor "" = (None, false) /\
  newDecompressor "tar" = (None, false) /\
  snd (newDecompressor ".tar") = true.
Proof.
  split; [|split].
  - apply (proj1 (short_names_are_leaves "")). simpl. lia.
  - apply (proj1 (short_names_are_leaves "tar")). simpl. lia.
  - apply (proj2 (short_names_are_leaves ".tar")). simpl. tauto.
Defined.

Lemma classify_iff_witness :
  newDecompressor "a.TB2" = (Some Bzip2, true) /\
  HasSuffix (ToLower "notes.txt") ".txz" = false.
Proof.
  split.
  - apply (proj1 (classify_iff "a.TB2") Bzip2). reflexivity.
  - apply (proj1 (proj1 (proj2 (classify_iff "notes.txt"))) eq_refl).
    simpl. tauto.
Defined.

Lemma hasSuffixes_spec_witness :
  hasSuffixes "old.tar.bz" bzip2_suffixes = true.
Proof.
  apply (proj2 (proj1 (hasSuffixes_spec "old.tar.bz" bzip2_suffixes))).
  exists ".tar.bz", "old". split; [simpl; tauto | reflexivity].
Defined.

(* ================================================================== *)
(** ** More on one descent *)

Section DescentFacts.

Variable tz : TZgrep.

Lemma match_chains_app t1 t2 :
  match_chains (t1 ++ t2) = match_chains t1 ++ match_chains t2.
Proof.
  induction t1 as [|[d c|d [c [e|]]] t1 IH]; simpl; try assumption;
    [reflexivity | now rewrite IH].
Qed.

Lemma entered_chains_app t1 t2 :
  entered_chains (t1 ++ t2) = entered_chains t1 ++ entered_chains t2.
Proof.
  induction t1 as [|[d c|d r] t1 IH]; simpl; [reflexivity | | assumption].
  now rewrite IH.
Qed.

Lemma find_match_chains zr d path :
  match_chains (trace (find tz d zr path))
  = filter (matches_chain tz) (entered_chains (trace (find tz d zr path))).
Proof.
  apply (find_trace_ind tz
    (fun t => match_chains t = filter (matches_chain tz) (entered_chains t))).
  - reflexivity.
  - intros t1 t2 H1 H2.
    now rewrite match_chains_app, entered_chains_app, filter_app, H1, H2.
  - intros d' p. unfold visit, matches_chain. simpl.
    destruct (terminal p) as [name|]; [|reflexivity].
    now destruct (MatchString tz name).
  - reflexivity.
Qed.

(** X6. The match Results of the descent of a root are, in order, the
    chains the descent enters whose terminal name the pattern matches:
    each visit of such a chain gives one match Result, no other match
    Result is sent, and the order is the order of the visits. *)
Theorem matches_are_the_matching_visits (fs : FileSystem) (p : string) :
  match_chains (trace (findPath tz fs p))
  = filter (matches_chain tz) (entered_chains (trace (findPath tz fs p))).
Proof.
  destruct (findPath_trace tz fs p) as [pre [-> Hpre]].
  rewrite match_chains_app, entered_chains_app, filter_app, find_match_chains.
  now destruct Hpre as [-> | [e ->]].
Qed.

Lemma find_failures_name_containers :
  forall zr d path, Forall names_container (trace (find tz d zr path)).
Proof.
  apply (stream_mut
    (fun zr => forall d path, Forall names_container (trace (find tz d zr path)))
    (fun z => match z with
              | ZRes (TarReader nexts) _ =>
                  forall d path name, terminal path = Some name ->
                    snd (newDecompressor name) = true ->
                    Forall names_container (trace (iterate tz d nexts path))
              | ZRes NilReader _ => True
              end)
    (fun r => match r with
              | TarReader nexts =>
                  forall d path name, terminal path = Some name ->
                    snd (newDecompressor name) = true ->
                    Forall names_container (trace (iterate tz d nexts path))
              | NilReader => True
              end)
    (fun nexts => forall d path name, terminal path = Some name ->
       snd (newDecompressor name) = true ->
       Forall names_container (trace (iterate tz d nexts path)))).
  - intros zopen IH d path. rewrite find_trace. apply Forall_app. split.
    + unfold visit. constructor; [exact I|].
      destruct (terminal path) as [name|]; [|constructor].
      destruct (MatchString tz name); repeat constructor.
    + destruct (terminal path) as [name|] eqn:Ht; [|constructor].
      rewrite descend_trace.
      destruct (newDecompressor name) as [[zf|] [|]] eqn:Hc; try constructor.
      simpl zopen_of. specialize (IH zf). destruct (zopen zf) as [r err].
      apply Forall_app. split.
      * destruct err; repeat constructor. exists name. rewrite Hc. now split.
      * destruct r; [constructor|]. apply (IH d path name Ht).
        now rewrite Hc.
  - intros r IH err. destruct r; [exact I | exact IH].
  - exact I.
  - intros nexts IH. exact IH.
  - intros d path name _ _. constructor.
  - intros e rest _ d path name Ht Hc. repeat constructor. now exists name.
  - intros name body IHb rest IHr d path cname Ht Hc.
    rewrite iterate_hdr_trace. apply Forall_app. split; [apply IHb|].
    destruct (outcome (find tz (S d) body (path ++ [name])));
      [now apply IHr with cname | constructor].
Qed.

End DescentFacts.

Section DescentOrder.

Variable tz : TZgrep.

(** X7. A failure Result of the descent of a root is the report of the
    failed open of the root, or it carries a chain whose terminal name
    is a container: a name that is no container never gets a failure
    Result from [find]. *)
Theorem failures_name_containers (fs : FileSystem) (p : string) d r e :
  In (Send d r) (trace (findPath tz fs p)) -> Err r = Some e ->
  (snd (fs p) = Some e /\ d = 0 /\ r = mkResult [p] (Some e)) \/
  exists name,
    terminal (Path r) = Some name /\ snd (newDecompressor name) = true.
Proof.
  intros Hin He. unfold findPath in Hin. destruct (fs p) as [f err].
  rewrite trace_bind in Hin. apply in_app_or in Hin.
  destruct Hin as [Hin | Hin].
  - destruct err as [e'|]; [|destruct Hin].
    destruct Hin as [Heq | []]. injection Heq as <- <-. simpl in He.
    injection He as ->. left. now repeat split.
  - right. assert (Hf : In (Send d r) (trace (find tz 0 f [p])))
      by (destruct err; exact Hin).
    pose proof (find_failures_name_containers tz f 0 [p]) as H.
    rewrite Forall_forall in H. specialize (H _ Hf). destruct r as [c [e'|]];
      [exact H | discriminate].
Qed.

Lemma sends_entered_mono seen seen' t :
  incl seen seen' -> sends_entered seen t -> sends_entered seen' t.
Proof.
  revert seen seen'. induction t as [|[d c|d r] t IH]; intros seen seen' Hi H;
    simpl in *; [exact I | |].
  - apply (IH ((d, c) :: seen)); [|exact H].
    intros x [<- | Hx]; [now left | right; now apply Hi].
  - destruct H as [H1 H2]. split; [now apply Hi | now apply (IH seen)].
Qed.

Lemma sends_entered_app seen t1 t2 :
  sends_entered seen (t1 ++ t2) <->
  sends_entered seen t1 /\ sends_entered (frames t1 ++ seen) t2.
Proof.
  revert seen. induction t1 as [|[d c|d r] t1 IH]; intros seen; simpl.
  - tauto.
  - rewrite IH, <- app_assoc. reflexivity.
  - rewrite IH. tauto.
Qed.

Lemma frames_In d c t : In (d, c) (frames t) -> In (Enter d c) t.
Proof.
  induction t as [|[d' c'|d' r] t IH]; simpl; [tauto | |].
  - intros H. apply in_app_or in H. destruct H as [H | [H | []]].
    + right. now apply IH.
    + injection H as -> ->. now left.
  - intros H. right. now apply IH.
Qed.

Lemma find_sends_entered :
  forall zr d path seen, sends_entered seen (trace (find tz d zr path)).
Proof.
  apply (stream_mut
    (fun zr => forall d path seen,
       sends_entered seen (trace (find tz d zr path)))
    (fun z => match z with
              | ZRes (TarReader nexts) _ =>
                  forall d path seen, In (d, path) seen ->
                    sends_entered seen (trace (iterate tz d nexts path))
              | ZRes NilReader _ => True
              end)
    (fun r => match r with
              | TarReader nexts =>
                  forall d path seen, In (d, path) seen ->
                    sends_entered seen (trace (iterate tz d nexts path))
              | NilReader => True
              end)
    (fun nexts => forall d path seen, In (d, path) seen ->
       sends_entered seen (trace (iterate tz d nexts path)))).
  - intros zopen IH d path seen. rewrite find_trace. unfold visit.
    cbn [app sends_entered].
    assert (Hrest : sends_entered ((d, path) :: seen)
              match terminal path with
              | Some name => trace (descend tz d (Stream zopen) name path)
              | None => []
              end).
    { destruct (terminal path) as [name|]; [|exact I].
      rewrite descend_trace.
      destruct (newDecompressor name) as [[zf|] [|]]; try exact I.
      simpl zopen_of. specialize (IH zf). destruct (zopen zf) as [r err].
      apply sends_entered_app. split.
      - destruct err; simpl; [split; [now left | exact I] | exact I].
      - destruct r; [exact I|]. apply IH. apply in_or_app. right. now left. }
    destruct (terminal path) as [name|]; [|exact Hrest].
    destruct (MatchString tz name); [|exact Hrest].
    cbn [app sends_entered]. split; [now left | exact Hrest].
  - intros r IH err. destruct r; [exact I | exact IH].
  - exact I.
  - intros nexts IH. exact IH.
  - intros d path seen _. exact I.
  - intros e rest _ d path seen Hin. simpl. now split.
  - intros name body IHb rest IHr d path seen Hin.
    rewrite iterate_hdr_trace. apply sends_entered_app. split; [apply IHb|].
    destruct (outcome (find tz (S d) body (path ++ [name]))); [|exact I].
    apply IHr. apply in_or_app. now right.
Qed.

(** X8. Every Result that [find] sends carries the chain of a call of
    [find] made before the send, at the depth of the sender: a Result
    is tagged with the chain of the frame that reports it. *)
Theorem results_carry_entered_chains zr d0 path t1 d r t2 :
  trace (find tz d0 zr path) = t1 ++ Send d r :: t2 ->
  In (Enter d (Path r)) t1.
Proof.
  intros Ht. pose proof (find_sends_entered zr d0 path []) as H.
  rewrite Ht in H. apply sends_entered_app in H. destruct H as [_ [H _]].
  rewrite app_nil_r in H. now apply frames_In.
Qed.

End DescentOrder.

Lemma failures_name_containers_witness :
  exists name,
    terminal ["bad.tar.gz"] = Some name /\ snd (newDecompressor name) = true.
Proof.
  destruct (failures_name_containers Samples.pattern_none Samples.disk
    "bad.tar.gz" 0 (mkResult ["bad.tar.gz"] (Some "gzip: invalid header"))
    "gzip: invalid header") as [[H _] | H].
  - simpl. tauto.
  - reflexivity.
  - discriminate H.
  - exact H.
Defined.

Lemma results_carry_entered_chains_witness :
  In (Enter 0 ["bad.tar.gz"]) [Enter 0 ["bad.tar.gz"]].
Proof.
  apply (results_carry_entered_chains Samples.pattern_none Samples.plain 0
    ["bad.tar.gz"] [Enter 0 ["bad.tar.gz"]] 0
    (mkResult ["bad.tar.gz"] (Some "gzip: invalid header")) []).
  reflexivity.
Defined.

(* ================================================================== *)
(** ** What a frame reads, and what failures leave behind *)

Section FrameFacts.

Variable tz : TZgrep.

(** X9. [find] applies to a stream the transform that the terminal name
    selects and no other: two streams that this transform reads alike
    give the same descent, and for a name that is no container the
    stream is not read at all. *)
Theorem only_the_selected_transform_is_applied d zr zr' path name :
  terminal path = Some name ->
  (forall zf, fst (newDecompressor name) = Some zf ->
     zopen_of zr zf = zopen_of zr' zf) ->
  find tz d zr path = find tz d zr' path.
Proof.
  intros Ht Hsame. rewrite !(find_split tz d _ path name Ht).
  f_equal. unfold descend.
  destruct (newDecompressor name) as [[zf|] ok]; [|reflexivity].
  destruct ok; [|reflexivity]. now rewrite (Hsame zf eq_refl).
Qed.

(** X10. A transform that fails and returns a reader that cannot be read
    (as the gzip, xz and zstd transforms do): the frame sends its
    failure Result and panics, it does not return. *)
Theorem failed_transform_panics d zr path name zf e :
  terminal path = Some name ->
  newDecompressor name = (Some zf, true) ->
  zopen_of zr zf = ZRes NilReader (Some e) ->
  find tz d zr path
  = (visit tz d path ++ [Send d (mkResult path (Some e))], None).
Proof.
  intros Ht Hc Hz.
  rewrite (find_after_failed_transform tz d zr path name zf NilReader e
             Ht Hc Hz).
  unfold bind, panic. now rewrite app_nil_r.
Qed.

(** X11. An open that fails: [findPath] sends the failure for the root and
    then descends all the same, on the file that [os.Open] returned;
    the root is entered, and matched against the pattern. *)
Theorem failed_open_still_descends (fs : FileSystem) path f e :
  fs path = (f, Some e) ->
  results (trace (findPath tz fs path))
  = mkResult [path] (Some e) :: results (trace (find tz 0 f [path])) /\
  outcome (findPath tz fs path) = outcome (find tz 0 f [path]) /\
  In (Enter 0 [path]) (trace (findPath tz fs path)) /\
  (MatchString tz path = true ->
   In (mkResult [path] None) (results (trace (findPath tz fs path)))).
Proof.
  intros Hfs. rewrite (findPath_after_failed_open tz fs path f e Hfs).
  rewrite trace_bind, outcome_bind. simpl outcome. cbn iota.
  rewrite find_trace. unfold visit.
  change (terminal [path]) with (Some path). cbv iota.
  split; [reflexivity | split; [reflexivity | split]].
  - right. left. reflexivity.
  - intros Hm. rewrite Hm. simpl. right. now left.
Qed.

End FrameFacts.

Lemma only_the_selected_transform_is_applied_witness :
  find Samples.pattern_y 0 Samples.plain ["y.txt"]
  = find Samples.pattern_y 0 (Samples.tarball []) ["y.txt"].
Proof.
  apply (only_the_selected_transform_is_applied Samples.pattern_y 0
    Samples.plain (Samples.tarball []) ["y.txt"] "y.txt" eq_refl).
  intros zf H. discriminate H.
Defined.

Lemma failed_transform_panics_witness :
  outcome (find Samples.pattern_none 1 Samples.plain ["a.tar"; "in.tgz"])
  = None.
Proof.
  rewrite (failed_transform_panics Samples.pattern_none 1 Samples.plain
    ["a.tar"; "in.tgz"] "in.tgz" Gzip "gzip: invalid header"
    eq_refl eq_refl eq_refl).
  reflexivity.
Defined.

Lemma failed_open_still_descends_witness :
  In (mkResult ["missing.txt"] None)
     (results (trace (findPath Samples.pattern_m Samples.disk "missing.txt"))).
Proof.
  apply (failed_open_still_descends Samples.pattern_m Samples.disk
    "missing.txt" _ _ eq_refl).
  reflexivity.
Defined.

(* ================================================================== *)
(** ** What the channel delivers *)

Lemma Subseq_nil_l {A : Type} (l : list A) : Subseq [] l.
Proof. induction l; constructor; assumption. Qed.

Lemma Subseq_app_r {A : Type} (l1 l2 : list A) (a : A) :
  Subseq l1 l2 -> Subseq l1 (l2 ++ [a]).
Proof.
  induction 1 as [|b l1 l2 _ IH|b l1 l2 _ IH]; simpl.
  - constructor. constructor.
  - now constructor.
  - now constructor.
Qed.

Lemma Subseq_snoc {A : Type} (l1 l2 : list A) (a : A) :
  Subseq l1 l2 -> Subseq (l1 ++ [a]) (l2 ++ [a]).
Proof.
  induction 1 as [|b l1 l2 _ IH|b l1 l2 _ IH]; simpl.
  - apply Subseq_take. constructor.
  - now constructor.
  - now constructor.
Qed.

Lemma Permutation_snoc_middle {A : Type} (o a x b : list A) (r : A) :
  Permutation o (a ++ x ++ b) ->
  Permutation (o ++ [r]) (a ++ (x ++ [r]) ++ b).
Proof.
  intros H. apply Permutation_trans with (r :: o).
  - apply Permutation_sym, Permutation_cons_append.
  - apply Permutation_trans with (r :: a ++ x ++ b); [now constructor|].
    apply Permutation_trans with (a ++ r :: x ++ b);
      [apply Permutation_middle|].
    apply Permutation_app_head. rewrite <- app_assoc. simpl.
    apply Permutation_middle.
Qed.

Section DeliveryFacts.

Variable tz : TZgrep.
Variable fs : FileSystem.

Lemma sent_middle (l1 l2 : list descent) (g : descent) :
  map (fun g => results (d_past g)) (l1 ++ g :: l2)
  = map (fun g => results (d_past g)) l1 ++
    results (d_past g) :: map (fun g => results (d_past g)) l2.
Proof. now rewrite map_app. Qed.

(** What a step does to the Results sent and to those received:
    nothing, or one Result more for one goroutine and at the end of
    the channel. *)
Lemma step_sent (s s' : state) :
  step tz fs s s' ->
  (out s' = out s /\ (sent s' = sent s \/ sent s' = sent s ++ [[]])) \/
  (exists a x b r,
     sent s = a ++ x :: b /\ sent s' = a ++ (x ++ [r]) :: b /\
     out s' = out s ++ [r]).
Proof.
  intros Hstep. unfold sent.
  destruct Hstep as
    [ s p ps Hc Hp
    | s l1 g l2 d c rest Hc Hd Ht
    | s l1 g l2 d r rest Hc Hd Ht Hcl
    | s l1 g l2 d r rest Hc Hd Ht Hcl
    | s l1 g l2 Hc Hd Ht He
    | s l1 g l2 n Hc Hd Ht He Hdone Hw
    | s l1 g l2 Hc Hd Ht He Hdone Hw
    | s Hc Hwait Hw ]; simpl;
    try (left; split; [reflexivity | left; reflexivity]).
  - left. split; [reflexivity|]. right. now rewrite map_app.
  - left. split; [reflexivity|]. left.
    rewrite Hd, !sent_middle, (advance_past g _ _ Ht), results_app. simpl.
    now rewrite app_nil_r.
  - right. exists (map (fun g => results (d_past g)) l1), (results (d_past g)),
      (map (fun g => results (d_past g)) l2), r.
    rewrite Hd, !sent_middle, (advance_past g _ _ Ht), results_app.
    repeat split.
  - left. split; [reflexivity|]. left. now rewrite Hd, !sent_middle.
Qed.

Lemma delivered_step (ss ss' : list (list Result)) (o o' : list Result) :
  (o' = o /\ (ss' = ss \/ ss' = ss ++ [[]])) \/
  (exists a x b r, ss = a ++ x :: b /\ ss' = a ++ (x ++ [r]) :: b /\
                   o' = o ++ [r]) ->
  Permutation o (List.concat ss) /\ Forall (fun x => Subseq x o) ss ->
  Permutation o' (List.concat ss') /\ Forall (fun x => Subseq x o') ss'.
Proof.
  intros [[-> [-> | ->]] | [a [x [b [r [-> [-> ->]]]]]]] [Hp Hs].
  - now split.
  - split.
    + rewrite concat_app. simpl. now rewrite app_nil_r.
    + apply Forall_app. split; [exact Hs|]. constructor; [|constructor].
      apply Subseq_nil_l.
  - rewrite concat_app in Hp. simpl in Hp.
    apply Forall_app in Hs. destruct Hs as [Ha Hxb].
    inversion Hxb as [|? ? Hx Hb]; subst. split.
    + rewrite concat_app. simpl. now apply Permutation_snoc_middle.
    + apply Forall_app. split.
      * eapply Forall_impl; [|exact Ha]. intros y. apply Subseq_app_r.
      * constructor; [now apply Subseq_snoc|].
        eapply Forall_impl; [|exact Hb]. intros y. apply Subseq_app_r.
Qed.

Lemma reachable_delivered (paths : list string) (s : state) :
  reachable tz fs paths s ->
  Permutation (out s) (List.concat (sent s)) /\
  Forall (fun x => Subseq x (out s)) (sent s).
Proof.
  induction 1 as [|s s' _ IH Hstep].
  - split; constructor.
  - exact (delivered_step (sent s) (sent s') (out s) (out s')
             (step_sent s s' Hstep) IH).
Qed.

(** X12. In every state of every run: the Results received are, as a
    multiset, the Results the goroutines have sent, none lost and none
    twice; and those of each goroutine were received in the order it
    sent them (Results of different roots may interleave). *)
Theorem channel_keeps_order_per_root (paths : list string) (s : state) :
  reachable tz fs paths s ->
  Permutation (out s) (List.concat (sent s)) /\
  forall g, In g (descents s) -> Subseq (results (d_past g)) (out s).
Proof.
  intros Hr. destruct (reachable_delivered paths s Hr) as [Hp Hs].
  split; [exact Hp|]. intros g Hg. rewrite Forall_forall in Hs.
  apply Hs. unfold sent. now apply in_map with (f := fun g => results (d_past g)).
Qed.

Lemma closed_sent (paths : list string) (s : state) :
  Inv tz fs paths s -> closes s = 1 ->
  sent s = results_of_roots tz fs paths.
Proof.
  intros I Hcl. destruct (inv_close I) as [[_ H] | [_ [_ Hw]]]; [congruence|].
  destruct (closed_all_finished tz fs paths s I Hw) as [Hpend Hall].
  pose proof (inv_roots I) as Hroots. rewrite Hpend, app_nil_r in Hroots.
  pose proof (inv_descents I) as Hok. unfold sent, results_of_roots.
  rewrite <- Hroots, map_map. apply map_ext_in. intros g Hg.
  rewrite Forall_forall in Hok, Hall. destruct (Hok g Hg) as [Hpast _].
  destruct (Hall g Hg) as [Htodo _].
  now rewrite Htodo, app_nil_r in Hpast; rewrite Hpast.
Qed.

(** X13. When the channel is closed, the consumer has received exactly the
    Results of the whole descents of all the roots, those of each root
    in the order of its descent. *)
Theorem closed_channel_delivered_everything (paths : list string) (s : state) :
  reachable tz fs paths s -> closes s = 1 ->
  Permutation (out s) (List.concat (results_of_roots tz fs paths)) /\
  forall p, In p paths -> Subseq (results (trace (findPath tz fs p))) (out s).
Proof.
  intros Hr Hcl. pose proof (reachable_Inv tz fs paths s Hr) as I.
  destruct (reachable_delivered paths s Hr) as [Hp Hs].
  rewrite (closed_sent paths s I Hcl) in Hp, Hs. split; [exact Hp|].
  intros p Hin. rewrite Forall_forall in Hs. apply Hs.
  unfold results_of_roots.
  now apply in_map with (f := fun p => results (trace (findPath tz fs p))).
Qed.

End DeliveryFacts.

Lemma channel_keeps_order_per_root_witness :
  Subseq [LeafRun.the_match] (out LeafRun.sent).
Proof.
  apply (proj2 (channel_keeps_order_per_root Samples.pattern_leaf Samples.disk
    ["leaf.txt"] LeafRun.sent LeafRunFacts.sent_reachable)
    (mkDescent "leaf.txt" [Enter 0 ["leaf.txt"]; Send 0 LeafRun.the_match] []
       (Some tt) false)).
  left. reflexivity.
Defined.

Lemma closed_channel_delivered_everything_witness :
  Permutation (out LeafRun.final) [LeafRun.the_match].
Proof.
  apply (proj1 (closed_channel_delivered_everything Samples.pattern_leaf
    Samples.disk ["leaf.txt"] LeafRun.final LeafRunFacts.final_reachable
    eq_refl)).
Defined.

Lemma panicking_root_never_closed_witness :
  closes (Start ["bad.tar.gz"]) = 0.
Proof.
  apply (panicking_root_never_closed Samples.pattern_none Samples.disk
    ["bad.tar.gz"] "bad.tar.gz" (Start ["bad.tar.gz"])).
  - left. reflexivity.
  - reflexivity.
  - apply reach_start.
Defined.

(* ================================================================== *)
(** ** The deferred Close: what blocking changes *)

Module ClosingFacts.
Import Closing.

Lemma agrees_andThen (c1 c2 : C) (m1 m2 : M unit) :
  agrees c1 m1 -> agrees c2 m2 ->
  agrees (andThen c1 c2) (bind m1 (fun _ => m2)).
Proof.
  destruct c1 as [t1 e1], c2 as [t2 e2]. intros [[r1 H1] A1] [[r2 H2] A2].
  simpl in *. destruct e1; simpl.
  - rewrite (A1 ltac:(discriminate)). split.
    + destruct m2 as [tm2 om2]. unfold trace in *. simpl in *. subst tm2.
      exists r2. now rewrite app_assoc.
    + intros Hne. now rewrite (A2 Hne).
  - rewrite (A1 ltac:(discriminate)). simpl. split; [|reflexivity].
    exists []. now rewrite app_nil_r.
  - split; [|intros H; now destruct H]. rewrite trace_bind, H1.
    eexists. now rewrite <- app_assoc.
Qed.

Lemma agrees_deferred (b : bool) (c : C) (m : M unit) :
  agrees c m -> agrees (deferred b c) m.
Proof.
  destruct c as [t e]. intros [H1 A1]. destruct e, b; simpl;
    try (split; [exact H1 | exact A1]);
    (split; [exact H1 | intros H; now destruct H]).
Qed.

Lemma agrees_send d r : agrees (send d r) (emit (Send d r)).
Proof. split; [exists []; reflexivity | reflexivity]. Qed.

Lemma agrees_skip : agrees skip (ret tt).
Proof. split; [exists []; reflexivity | reflexivity]. Qed.

Lemma agrees_panic : agrees ([], Panics) panic.
Proof. split; [exists []; reflexivity | reflexivity]. Qed.

Section Agreement.

Variable tz : TZgrep.
Variable wait : Waits.

Lemma findC_eq d zr path :
  findC tz wait d zr path
  = match terminal path with
    | None => ([Enter d path], Panics)
    | Some name =>
        andThen ([Enter d path], Returns)
       (andThen (if MatchString tz name
                 then send d (mkResult path None) else skip)
          match newDecompressor name with
          | (_, false) => skip
          | (None, true) => ([], Panics)
          | (Some zf, true) =>
              match zopen_of zr zf with
              | ZRes r err =>
                  andThen
                    (match err with
                     | Some e => send d (mkResult path (Some e))
                     | None => skip
                     end)
                    match r with
                    | NilReader => ([], Panics)
                    | TarReader nexts =>
                        deferred (close_returns wait zr zf)
                          (iterateC tz wait d nexts path)
                    end
              end
          end)
    end.
Proof. destruct zr as [zopen]. reflexivity. Qed.

(** The traversal with Close performs the events of [find] up to the
    Close that blocks, if one does, and ends as [find] ends if none
    does. *)
Lemma findC_agrees :
  forall zr d path, agrees (findC tz wait d zr path) (find tz d zr path).
Proof.
  apply (stream_mut
    (fun zr => forall d path,
       agrees (findC tz wait d zr path) (find tz d zr path))
    (fun z => match z with
              | ZRes (TarReader nexts) _ =>
                  forall d path,
                    agrees (iterateC tz wait d nexts path)
                           (iterate tz d nexts path)
              | ZRes NilReader _ => True
              end)
    (fun r => match r with
              | TarReader nexts =>
                  forall d path,
                    agrees (iterateC tz wait d nexts path)
                           (iterate tz d nexts path)
              | NilReader => True
              end)
    (fun nexts => forall d path,
       agrees (iterateC tz wait d nexts path) (iterate tz d nexts path))).
  - intros zopen IH d path. rewrite findC_eq, find_eq. unfold index_last.
    destruct (terminal path) as [name|].
    + apply (agrees_andThen ([Enter d path], Returns) _ (emit (Enter d path))).
      { split; [exists []; reflexivity | reflexivity]. }
      rewrite bind_ret_l.
      apply agrees_andThen.
      { destruct (MatchString tz name); [apply agrees_send | apply agrees_skip]. }
      unfold descend. simpl zopen_of.
      destruct (newDecompressor name) as [[zf|] [|]];
        try apply agrees_skip; try apply agrees_panic.
      specialize (IH zf). destruct (zopen zf) as [r err].
      apply agrees_andThen.
      { destruct err; [apply agrees_send | apply agrees_skip]. }
      destruct r; [apply agrees_panic|]. apply agrees_deferred, IH.
    + split; [exists []; reflexivity | reflexivity].
  - intros r IH err. destruct r; [exact I | exact IH].
  - exact I.
  - intros nexts IH. exact IH.
  - intros d path. apply agrees_skip.
  - intros e rest _ d path. apply agrees_send.
  - intros name body IHb rest IHr d path. simpl.
    apply agrees_andThen; [apply IHb | apply IHr].
Qed.

Lemma findPathC_agrees (fs : FileSystem) (p : string) :
  agrees (findPathC tz wait fs p) (findPath tz fs p).
Proof.
  unfold findPathC, findPath. destruct (fs p) as [f err].
  apply agrees_andThen.
  - destruct err; [apply agrees_send | apply agrees_skip].
  - apply agrees_deferred, findC_agrees.
Qed.

Lemma findPathC_returns (fs : FileSystem) (p : string) :
  snd (findPathC tz wait fs p) = Returns ->
  outcome (findPath tz fs p) = Some tt.
Proof.
  intros H. destruct (findPathC_agrees fs p) as [_ A].
  rewrite A by (rewrite H; discriminate). now rewrite H.
Qed.

End Agreement.

Section BlockingRuns.

Variable tz : TZgrep.
Variable wait : Waits.
Variable fs : FileSystem.

Lemma acts_step (s s' : state) (g : descent) :
  acts s g s' -> step tz fs s s'.
Proof.
  intros H. destruct H.
  - now apply step_enter with d c rest.
  - now apply step_send with d rest.
  - now apply step_send_on_closed with l1 g l2 d r rest.
  - now apply step_panic with l1 g l2.
  - now apply step_done.
  - now apply step_done_negative with l1 g l2.
Qed.

(** The runs with blocking are runs of [step], cut short. *)
Lemma stepC_step (s s' : state) : stepC tz wait fs s s' -> step tz fs s s'.
Proof.
  intros H. destruct H as [s p ps Hc Hp | s g s' Ha _ | s Hc Hw Hz].
  - now apply step_launch.
  - now apply acts_step with g.
  - now apply step_close.
Qed.

Lemma reachableC_reachable (paths : list string) (s : state) :
  reachableC tz wait fs paths s -> reachable tz fs paths s.
Proof.
  induction 1 as [|s s' _ IH Hstep]; [apply reach_start|].
  apply reach_step with s; [exact IH | now apply stepC_step].
Qed.

(** Until the channel is closed, a process that has not crashed and
    in which no goroutine hangs in a Close can take a step. *)
Lemma progressC (paths : list string) (s : state) :
  Inv tz fs paths s -> crashed s = false -> closes s = 0 ->
  (forall g, In g (descents s) -> ~ hangs tz wait fs g) ->
  exists s', stepC tz wait fs s s'.
Proof.
  intros I Hc Hcl Hlive.
  destruct (pending s) as [|p ps] eqn:Hp.
  2:{ eexists. now apply stepC_launch with (p := p) (ps := ps). }
  destruct (finished_or_not (descents s)) as [Hall | [l1 [g [l2 [Hd Hg]]]]].
  - exists (closed s). apply stepC_close; [exact Hc | |].
    + destruct (inv_close I) as [[H _] | [_ [H _]]]; [exact H | congruence].
    + rewrite (inv_wg I), Hp. simpl. unfold active.
      replace (filter (fun g => negb (d_done g)) (descents s)) with (@nil descent);
        [reflexivity|].
      symmetry. clear -Hall.
      induction Hall as [|g l [_ Hg] _ IH]; [reflexivity|].
      simpl. now rewrite Hg.
  - assert (Hin : In g (descents s))
      by (rewrite Hd; apply in_or_app; right; now left).
    specialize (Hlive g Hin).
    destruct (d_todo g) as [|[d c|d r] rest] eqn:Ht.
    + destruct Hg as [Hg | Hg]; [congruence|].
      destruct (d_end g) as [[]|] eqn:He.
      * pose proof (inv_wg I) as Hw.
        rewrite Hd, active_app, active_cons, Hg in Hw.
        destruct (wg s) as [|n] eqn:Hn; [lia|].
        eexists. apply stepC_acts with g; [|exact Hlive].
        now apply acts_done with (l1 := l1) (l2 := l2) (n := n).
      * eexists. apply stepC_acts with g; [|exact Hlive].
        now apply acts_panic with (l1 := l1) (l2 := l2).
    + eexists. apply stepC_acts with g; [|exact Hlive].
      now apply acts_enter with (l1 := l1) (l2 := l2) (d := d) (c := c)
        (rest := rest).
    + eexists. apply stepC_acts with g; [|exact Hlive].
      now apply acts_send with (l1 := l1) (l2 := l2) (d := d) (r := r)
        (rest := rest).
Qed.

(** When [cmd.Wait()] always returns, no Close blocks. *)
Lemma findPathC_never_blocks (p : string) :
  (forall zr zf, wait zr zf = true) ->
  snd (findPathC tz wait fs p) <> Blocks.
Proof.
  intros Hw.
  assert (Hd : forall b c, b = true -> snd c <> Blocks ->
            snd (deferred b c) <> Blocks).
  { intros b [t e] -> H. destruct e; simpl in *; congruence. }
  assert (Ha : forall c1 c2, snd c1 <> Blocks -> snd c2 <> Blocks ->
            snd (andThen c1 c2) <> Blocks).
  { intros [t1 e1] [t2 e2] H1 H2. destruct e1; simpl in *; congruence. }
  assert (Hc : forall zr zf, close_returns wait zr zf = true)
    by (intros zr zf; destruct zf; simpl; auto).
  assert (Hs : forall d r, snd (send d r) <> Blocks) by (intros; discriminate).
  assert (Hk : snd skip <> Blocks) by discriminate.
  assert (Hf : forall zr d path, snd (findC tz wait d zr path) <> Blocks).
  { apply (stream_mut
      (fun zr => forall d path, snd (findC tz wait d zr path) <> Blocks)
      (fun z => match z with
                | ZRes (TarReader nexts) _ =>
                    forall d path, snd (iterateC tz wait d nexts path) <> Blocks
                | ZRes NilReader _ => True
                end)
      (fun r => match r with
                | TarReader nexts =>
                    forall d path, snd (iterateC tz wait d nexts path) <> Blocks
                | NilReader => True
                end)
      (fun nexts => forall d path,
         snd (iterateC tz wait d nexts path) <> Blocks)).
    - intros zopen IH d path. rewrite findC_eq.
      destruct (terminal path) as [name|]; [|discriminate].
      apply Ha; [discriminate|]. apply Ha.
      { destruct (MatchString tz name); [apply Hs | exact Hk]. }
      simpl zopen_of. destruct (newDecompressor name) as [[zf|] [|]];
        try exact Hk; try discriminate.
      specialize (IH zf). destruct (zopen zf) as [r err].
      apply Ha; [destruct err; [apply Hs | exact Hk]|].
      destruct r; [discriminate|]. apply Hd; [apply Hc | apply IH].
    - intros r IH err. destruct r; [exact I | exact IH].
    - exact I.
    - intros nexts IH. exact IH.
    - intros d path. exact Hk.
    - intros e rest _ d path. apply Hs.
    - intros name body IHb rest IHr d path. simpl.
      apply Ha; [apply IHb | apply IHr]. }
  unfold findPathC. destruct (fs p) as [f err].
  apply Ha; [destruct err; [apply Hs | exact Hk]|].
  apply Hd; [reflexivity | apply Hf].
Qed.

(** X14. With the deferred Close in the picture: when the descent of
    every root returns (it neither panics nor blocks in a Close), no
    run crashes and a run that can go no further has closed the
    channel.  When [cmd.Wait()] always returns, a descent returns here
    exactly when [findPath] returns. *)
Theorem returning_descents_close (paths : list string) (s : state) :
  (forall p, In p paths -> snd (findPathC tz wait fs p) = Returns) ->
  reachableC tz wait fs paths s ->
  crashed s = false /\
  ((forall s', ~ stepC tz wait fs s s') -> closes s = 1) /\
  ((forall zr zf, wait zr zf = true) ->
   forall p, snd (findPathC tz wait fs p) = Returns <->
             outcome (findPath tz fs p) = Some tt).
Proof.
  intros Hret Hr.
  pose proof (reachable_Inv tz fs paths s (reachableC_reachable paths s Hr))
    as I.
  assert (Hroot : forall g, In g (descents s) -> In (d_root g) paths).
  { intros g Hg. rewrite <- (inv_roots I). apply in_or_app. left.
    now apply in_map. }
  assert (Hc : crashed s = false).
  { destruct (crashed s) eqn:Hc; [|reflexivity].
    destruct (inv_crash I Hc) as [g [Hg [_ He]]].
    pose proof (inv_descents I) as Hok. rewrite Forall_forall in Hok.
    destruct (Hok g Hg) as [_ [Hend _]].
    rewrite (findPathC_returns tz wait fs (d_root g) (Hret _ (Hroot g Hg)))
      in Hend. congruence. }
  split; [exact Hc | split].
  - intros Hstuck.
    destruct (inv_close I) as [[_ H0] | [_ [H1 _]]]; [|exact H1].
    destruct (progressC paths s I Hc H0) as [s' Hs'].
    + intros g Hg [Hb _]. rewrite (Hret _ (Hroot g Hg)) in Hb. discriminate.
    + now destruct (Hstuck s').
  - intros Hw p. split; [apply findPathC_returns|]. intros Ho.
    pose proof (findPathC_never_blocks p Hw) as Hnb.
    destruct (findPathC_agrees tz wait fs p) as [_ A]. specialize (A Hnb).
    rewrite A in Ho. simpl in Ho.
    destruct (snd (findPathC tz wait fs p)); [reflexivity | discriminate
                                             | now destruct Hnb].
Qed.

End BlockingRuns.

Import Samples LeafRun.

Lemma leaf_never_hangs (g : descent) :
  d_root g = "leaf.txt" -> ~ hangs pattern_leaf always_returns disk g.
Proof. intros Hg [Hb _]. rewrite Hg in Hb. discriminate Hb. Qed.

Lemma final_reachableC :
  reachableC pattern_leaf always_returns disk ["leaf.txt"] final.
Proof.
  apply reachC_step with returned; [|now apply stepC_close].
  apply reachC_step with sent.
  2:{ apply stepC_acts with
        (mkDescent "leaf.txt" [Enter 0 ["leaf.txt"]; Send 0 the_match] []
           (Some tt) false); [|now apply leaf_never_hangs].
      exact (acts_done sent [] _ [] 0 eq_refl eq_refl eq_refl eq_refl eq_refl
               eq_refl). }
  apply reachC_step with entered.
  2:{ apply stepC_acts with
        (mkDescent "leaf.txt" [Enter 0 ["leaf.txt"]] [Send 0 the_match]
           (Some tt) false); [|now apply leaf_never_hangs].
      exact (acts_send entered [] _ [] 0 the_match [] eq_refl eq_refl eq_refl
               eq_refl). }
  apply reachC_step with launched.
  2:{ apply stepC_acts with
        (mkDescent "leaf.txt" [] [Enter 0 ["leaf.txt"]; Send 0 the_match]
           (Some tt) false); [|now apply leaf_never_hangs].
      exact (acts_enter launched [] _ [] 0 ["leaf.txt"] [Send 0 the_match]
               eq_refl eq_refl eq_refl). }
  apply reachC_step with (Start ["leaf.txt"]); [apply reachC_start|].
  exact (stepC_launch pattern_leaf always_returns disk (Start ["leaf.txt"])
           "leaf.txt" [] eq_refl eq_refl).
Qed.

Lemma returning_descents_close_witness :
  crashed final = false /\
  outcome (findPath pattern_leaf disk "leaf.txt") = Some tt.
Proof.
  assert (H : forall p, In p ["leaf.txt"] ->
            snd (findPathC pattern_leaf always_returns disk p) = Returns)
    by (intros p [<- | []]; reflexivity).
  destruct (returning_descents_close pattern_leaf always_returns disk
              ["leaf.txt"] final H final_reachableC) as [H1 [_ H3]].
  split; [exact H1|].
  apply (proj1 (H3 (fun _ _ => eq_refl) "leaf.txt")). reflexivity.
Defined.

(** The run of [Start ["big.tar.xz"]] when the xz command is never
    done: the goroutine sends the failure of the broken header and
    hangs in the Close; nothing panics, no step is left, and the
    channel stays open.  Without the Close, [findPath] returns. *)
Example blocked_run :
  reachableC pattern_none never_returns xz_disk ["big.tar.xz"] hung /\
  (forall s', ~ stepC pattern_none never_returns xz_disk hung s') /\
  closes hung = 0 /\ crashed hung = false /\
  findPathC pattern_none never_returns xz_disk "big.tar.xz"
  = ([Enter 0 ["big.tar.xz"]; Enter 1 ["big.tar.xz"; "x.txt"];
      Send 0 (mkResult ["big.tar.xz"]
                (Some "archive/tar: invalid tar header"))], Blocks) /\
  outcome (findPath pattern_none xz_disk "big.tar.xz") = Some tt.
Proof.
  assert (Hlive : forall g, d_root g = "big.tar.xz" ->
            List.length (d_past g) < 3 ->
            ~ hangs pattern_none never_returns xz_disk g).
  { intros g Hg Hlen [_ Hp]. rewrite Hg in Hp. rewrite Hp in Hlen.
    simpl in Hlen. lia. }
  split; [|split; [|repeat split]].
  - set (e1 := Enter 0 ["big.tar.xz"]).
    set (e2 := Enter 1 ["big.tar.xz"; "x.txt"]).
    set (e3 := Send 0 (mkResult ["big.tar.xz"]
                         (Some "archive/tar: invalid tar header"))).
    set (s1 := mkState [] [mkDescent "big.tar.xz" [] [e1; e2; e3]
                             (Some tt) false] 1 true 0 [] false).
    set (s2 := mkState [] [mkDescent "big.tar.xz" [e1] [e2; e3]
                             (Some tt) false] 1 true 0 [] false).
    set (s3 := mkState [] [mkDescent "big.tar.xz" [e1; e2] [e3]
                             (Some tt) false] 1 true 0 [] false).
    apply reachC_step with s3.
    2:{ apply stepC_acts with
          (mkDescent "big.tar.xz" [e1; e2] [e3] (Some tt) false);
          [|apply Hlive; [reflexivity | simpl; lia]].
        exact (acts_send s3 [] _ [] 0 _ [] eq_refl eq_refl eq_refl eq_refl). }
    apply reachC_step with s2.
    2:{ apply stepC_acts with
          (mkDescent "big.tar.xz" [e1] [e2; e3] (Some tt) false);
          [|apply Hlive; [reflexivity | simpl; lia]].
        exact (acts_enter s2 [] _ [] 1 _ [e3] eq_refl eq_refl eq_refl). }
    apply reachC_step with s1.
    2:{ apply stepC_acts with
          (mkDescent "big.tar.xz" [] [e1; e2; e3] (Some tt) false);
          [|apply Hlive; [reflexivity | simpl; lia]].
        exact (acts_enter s1 [] _ [] 0 _ [e2; e3] eq_refl eq_refl eq_refl). }
    apply reachC_step with (Start ["big.tar.xz"]); [apply reachC_start|].
    exact (stepC_launch pattern_none never_returns xz_disk
             (Start ["big.tar.xz"]) "big.tar.xz" [] eq_refl eq_refl).
  - intros s' Hstep.
    inversion Hstep as [s p ps Hc Hp | s g s0 Ha Hh | s Hc Hw Hz]; subst.
    + discriminate Hp.
    + apply Hh. assert (Hg : In g (descents hung)).
      { inversion Ha; subst;
          match goal with
          | H : descents hung = _ |- _ =>
              rewrite H; apply in_or_app; right; now left
          end. }
      destruct Hg as [<- | []]. split; reflexivity.
    + discriminate Hz.
Qed.

End ClosingFacts.
